(** * CMDRun: the command registry and the execution dispatcher

    A shallow embedding of [listProvider.ts] (the action store, the group
    tree builder, the drag-and-drop reorder engine, import) and of the
    [cmdrun.run] handler of [extension.ts] (the execution dispatcher),
    followed by the properties of the written specification that concern
    them. *)

From Stdlib Require Import ZArith Lia Ascii String Sorted Permutation.
From stdpp Require Import base list strings gmap pretty.


(** ** JavaScript built-ins used by the sources *)

Module Js.

(** Truthiness of a string: only the empty string is falsy. *)
Definition truthy (s : string) : bool :=
  match s with
  | EmptyString => false
  | String _ _ => true
  end.

(** [s.startsWith(p)] *)
Fixpoint startsWith (s p : string) {struct p} : bool :=
  match p, s with
  | EmptyString, _ => true
  | String _ _, EmptyString => false
  | String a p', String b s' => Ascii.eqb a b && startsWith s' p'
  end.

(** [s.includes(sub)] *)
Fixpoint includes (s sub : string) : bool :=
  startsWith s sub ||
  match s with
  | EmptyString => false
  | String _ s' => includes s' sub
  end.

(** [s.split(sep)] for a one-character separator; never empty. *)
Fixpoint split (sep : ascii) (s : string) : list string :=
  match s with
  | EmptyString => [EmptyString]
  | String c s' =>
      if Ascii.eqb c sep then EmptyString :: split sep s'
      else match split sep s' with
           | w :: ws => String c w :: ws
           | [] => [String c EmptyString]
           end
  end.

(** [s.split(sep)[0]] *)
Definition firstSegment (sep : ascii) (s : string) : string :=
  match split sep s with
  | w :: _ => w
  | [] => EmptyString
  end.

(** [parts[parts.length - 1]] *)
Definition lastSegment (sep : ascii) (s : string) : string :=
  match last (split sep s) with
  | Some w => w
  | None => EmptyString
  end.

(** [s.slice(n)] for [0 <= n]. *)
Fixpoint slice (n : nat) (s : string) : string :=
  match n, s with
  | O, _ => s
  | S _, EmptyString => EmptyString
  | S n', String _ s' => slice n' s'
  end.

(** [s.toLowerCase()] on the letters [A] to [Z]; the sources' searches
    are stated for any lowering function, this one serves in examples. *)
Definition lowerAscii (c : ascii) : ascii :=
  let n := nat_of_ascii c in
  if ((65 <=? n) && (n <=? 90))%nat then ascii_of_nat (n + 32) else c.

Fixpoint toLowerCaseAscii (s : string) : string :=
  match s with
  | EmptyString => EmptyString
  | String c s' => String (lowerAscii c) (toLowerCaseAscii s')
  end.

(** [l.join(sep)] *)
Definition join (sep : string) (l : list string) : string :=
  String.concat sep l.

(** [l.findIndex(p)], with [-1] when no element satisfies [p]. *)
Fixpoint findIndex {A} (p : A -> bool) (l : list A) : Z :=
  match l with
  | [] => (-1)%Z
  | x :: l' =>
      if p x then 0%Z
      else let r := findIndex p l' in
           if (r <? 0)%Z then (-1)%Z else (r + 1)%Z
  end.

(** The index at which [l.splice(start, ...)] starts: a negative start
    counts from the end, and the result is clamped to [0, length]. *)
Definition spliceStart (len : nat) (start : Z) : nat :=
  if (start <? 0)%Z then Z.to_nat (Z.max (Z.of_nat len + start) 0)
  else Z.to_nat (Z.min start (Z.of_nat len)).

(** [l.splice(start, deleteCount, ...items)]: the removed elements (the
    call's value) and the array afterwards. *)
Definition splice {A} (l : list A) (start : Z) (deleteCount : nat)
    (items : list A) : list A * list A :=
  let s := spliceStart (length l) start in
  (take deleteCount (drop s l), take s l ++ items ++ drop (s + deleteCount) l).

(** [idxs.sort((a, b) => b - a)]: descending order. *)
Fixpoint insertDescending (x : nat) (l : list nat) : list nat :=
  match l with
  | [] => [x]
  | y :: l' => if (y <? x)%nat then x :: l else y :: insertDescending x l'
  end.

Fixpoint sortDescending (l : list nat) : list nat :=
  match l with
  | [] => []
  | x :: l' => insertDescending x (sortDescending l')
  end.

(** [s.replace(/c/g, repl)] for one character [c]. *)
Fixpoint replaceAll (c : ascii) (repl : string) (s : string) : string :=
  match s with
  | EmptyString => EmptyString
  | String x s' =>
      if Ascii.eqb x c then repl +:+ replaceAll c repl s'
      else String x (replaceAll c repl s')
  end.

End Js.

(** ** Data model ([listProvider.ts], lines 5-35) *)

Module UrlItem.
Record t := mk {
  url : string;
  external : option bool
}.
End UrlItem.

Module ProgramItem.
Record t := mk {
  path : string;
  args : option string
}.
End ProgramItem.

Module CommandData.
Record t := mk {
  name : string;
  group : option string;
  commands : option (list string);
  autoClose : option bool;
  externalTerminal : option bool;
  terminalProfile : option string;
  runAsAdmin : option bool;
  env : option (gmap string string);
  urls : option (list UrlItem.t);
  url : option string;
  programs : option (list ProgramItem.t);
  program : option string;
  args : option (list string)
}.

(** [cmd.group = g] *)
Definition setGroup (g : option string) (c : t) : t :=
  mk (name c) g (commands c) (autoClose c) (externalTerminal c)
     (terminalProfile c) (runAsAdmin c) (env c) (urls c) (url c)
     (programs c) (program c) (args c).

(** The same action with other values in the deprecated [url] field, or
    in the deprecated [program] and [args] fields. *)
Definition withLegacyUrl (u : option string) (c : t) : t :=
  mk (name c) (group c) (commands c) (autoClose c) (externalTerminal c)
     (terminalProfile c) (runAsAdmin c) (env c) (urls c) u
     (programs c) (program c) (args c).

Definition withLegacyProgram (p : option string) (a : option (list string))
    (c : t) : t :=
  mk (name c) (group c) (commands c) (autoClose c) (externalTerminal c)
     (terminalProfile c) (runAsAdmin c) (env c) (urls c) (url c)
     (programs c) p a.

(** An action that carries only a name and a group. *)
Definition simple (n : string) (g : option string) : t :=
  mk n g None None None None None None None None None None None.

(** [copy.name = n] *)
Definition setName (n : string) (c : t) : t :=
  mk n (group c) (commands c) (autoClose c) (externalTerminal c)
     (terminalProfile c) (runAsAdmin c) (env c) (urls c) (url c)
     (programs c) (program c) (args c).
End CommandData.

(** An optional string is truthy when present and non-empty. *)
Definition truthyOpt (o : option string) : bool :=
  match o with
  | Some s => Js.truthy s
  | None => false
  end.

(** An optional boolean is truthy when present and true. *)
Definition truthyFlag (o : option bool) : bool :=
  match o with
  | Some b => b
  | None => false
  end.

(** ** Legacy-field normalization

    The expression [data.urls || (data.url ? [{ url: data.url }] : [])]
    is written three times (tooltip, search filter, dispatcher); an array,
    even an empty one, is truthy, and an empty string is falsy. *)

Definition effectiveUrls (c : CommandData.t) : list UrlItem.t :=
  match CommandData.urls c with
  | Some us => us
  | None =>
      match CommandData.url c with
      | Some u => if Js.truthy u then [UrlItem.mk u None] else []
      | None => []
      end
  end.

(** Tooltip ([listProvider.ts], line 152) and form: the deprecated token
    array is joined with a space when the entry is built. *)
Definition tooltipPrograms (c : CommandData.t) : list ProgramItem.t :=
  match CommandData.programs c with
  | Some ps => ps
  | None =>
      match CommandData.program c with
      | Some p =>
          if Js.truthy p
          then [ProgramItem.mk p (Js.join " " <$> CommandData.args c)]
          else []
      | None => []
      end
  end.

(** Search filter ([listProvider.ts], line 261): only the path is kept. *)
Definition searchPrograms (c : CommandData.t) : list ProgramItem.t :=
  match CommandData.programs c with
  | Some ps => ps
  | None =>
      match CommandData.program c with
      | Some p => if Js.truthy p then [ProgramItem.mk p None] else []
      | None => []
      end
  end.

(** ** Tree items ([listProvider.ts], lines 108-171) *)

Definition newline : string := String (ascii_of_nat 10) EmptyString.

Module GroupItem.
Record t := mk {
  groupPath : string;
  label : string;
  expanded : bool;
  contextValue : string;
  iconPath : string;
  description : option string
}.

(** [new GroupItem(groupPath, isExpanded, commandCount)] *)
Definition new (groupPath : string) (isExpanded : bool)
    (commandCount : option nat) : t :=
  mk groupPath (Js.lastSegment "/" groupPath) isExpanded "groupItem"
     (if isExpanded then "folder-opened" else "folder")
     (match commandCount with
      | Some n => if (0 <? n)%nat then Some (pretty n) else None
      | None => None
      end).
End GroupItem.

Module CommandItem.
Record t := mk {
  data : CommandData.t;
  index : nat;
  label : string;
  tooltip : string;
  contextValue : string;
  iconPath : string
}.

(** [data.commands?.length] as a condition. *)
Definition hasCommands (c : CommandData.t) : bool :=
  match CommandData.commands c with
  | Some (_ :: _) => true
  | _ => false
  end.

Definition urlLine (u : UrlItem.t) : string :=
  "🔗 " +:+ UrlItem.url u +:+
  (if truthyFlag (UrlItem.external u) then " (external)" else "").

Definition programLine (p : ProgramItem.t) : string :=
  "⚙️ " +:+ ProgramItem.path p +:+
  (if truthyOpt (ProgramItem.args p)
   then " " +:+ default "" (ProgramItem.args p) else "").

Definition tooltipParts (c : CommandData.t) : list string :=
  (if hasCommands c then default [] (CommandData.commands c) else [])
  ++ (urlLine <$> effectiveUrls c)
  ++ (programLine <$> tooltipPrograms c).

(** [new CommandItem(data, index)] *)
Definition new (data : CommandData.t) (index : nat) : t :=
  let hasUrls := match effectiveUrls data with [] => false | _ => true end in
  mk data index (CommandData.name data)
     (Js.join newline (tooltipParts data))
     "commandItem"
     (if hasUrls && negb (hasCommands data) then "link-external"
      else if hasCommands data && hasUrls then "run-all"
      else "terminal").
End CommandItem.

Inductive TreeItem :=
  | GroupNode (g : GroupItem.t)
  | CommandNode (c : CommandItem.t).

(** ** The list provider ([listProvider.ts], lines 175-911) *)

(** What the provider asks of its host. *)
Inductive Event :=
  | WriteConfig (path : string) (cmds : list CommandData.t)
  | ShowErrorMessage (msg : string)
  | ShowInformationMessage (msg : string)
  | Refresh.

(** The value carried by the drag-and-drop data transfer. *)
Inductive DragData :=
  | DragCommands (indices : list nat)
  | DragGroup (groupPath : string).

Module ListProvider.

Record state := mkState {
  commands : list CommandData.t;
  expandedGroups : gset string;
  searchFilter : string;
  configPath : option string
}.

Definition setCommands (cmds : list CommandData.t) (st : state) : state :=
  mkState cmds (expandedGroups st) (searchFilter st) (configPath st).

(** [c.group === groupPath || (c.group && c.group.startsWith(groupPath + '/'))] *)
Definition inGroup (groupPath : string) (c : CommandData.t) : bool :=
  match CommandData.group c with
  | None => false
  | Some g =>
      String.eqb g groupPath
      || (Js.truthy g && Js.startsWith g (groupPath +:+ "/"))
  end.

(** [!c.group] *)
Definition ungrouped (c : CommandData.t) : bool :=
  negb (truthyOpt (CommandData.group c)).

(** [handleDrag], lines 269-284. *)
Definition handleDrag (source : list TreeItem) : option DragData :=
  let commandItems :=
    omap (fun i => match i with CommandNode c => Some c | _ => None end) source in
  let groupItems :=
    omap (fun i => match i with GroupNode g => Some g | _ => None end) source in
  match commandItems, groupItems with
  | _ :: _, _ => Some (DragCommands (CommandItem.index <$> commandItems))
  | [], g :: _ => Some (DragGroup (GroupItem.groupPath g))
  | [], [] => None
  end.

(** [saveCommands], lines 471-489: the whole store is written to the
    configuration file of the workspace, when there is one. *)
Definition saveCommands (st : state) : list Event :=
  match configPath st with
  | None => [ShowErrorMessage "No workspace folder open"]
  | Some p => [WriteConfig p (commands st)]
  end.

(** [findIndex] followed by [if (targetIndex === -1) targetIndex = length]. *)
Definition findIndexOrEnd (p : CommandData.t -> bool)
    (cmds : list CommandData.t) : Z :=
  let i := Js.findIndex p cmds in
  if (i =? -1)%Z then Z.of_nat (length cmds) else i.

(** The two statements shared by both branches of [handleDrop]:
    [const [removed] = commands.splice(sourceIndex, 1)] and
    [commands.splice(adjustedTarget, 0, removed)]. *)
Definition moveItem (sourceIndex : nat) (targetIndex : Z)
    (cmds : list CommandData.t) : list CommandData.t :=
  let '(removed, cmds1) := Js.splice cmds (Z.of_nat sourceIndex) 1 [] in
  let adjustedTarget :=
    if (Z.of_nat sourceIndex <? targetIndex)%Z
    then (targetIndex - 1)%Z else targetIndex in
  (Js.splice cmds1 adjustedTarget 0 (take 1 removed)).2.

(** Lines 393-396 of [handleGroupDrop]: the positions of the actions
    that satisfy [member], in store order. *)
Definition memberIndices (member : CommandData.t -> bool)
    (cmds : list CommandData.t) : list nat :=
  (fun item : CommandData.t * nat => item.2) <$>
    List.filter (fun item : CommandData.t * nat => member item.1)
      (imap (fun i c => (c, i)) cmds).

(** Line 402, one turn of the removal loop:
    [removed.unshift(this.commands.splice(idx, 1)[0])]. *)
Definition removeStep (s : list CommandData.t * list CommandData.t)
    (idx : nat) : list CommandData.t * list CommandData.t :=
  let '(cs, removed) := s in
  let '(r, cs') := Js.splice cs (Z.of_nat idx) 1 [] in
  (cs', take 1 r ++ removed).

(** [handleGroupDrop], lines 360-414. *)
Definition handleGroupDrop (sourceGroupPath : string)
    (target : option TreeItem) (st : state) : state * list Event :=
  let cmds := commands st in
  let sourceCommands := List.filter (inGroup sourceGroupPath) cmds in
  match sourceCommands with
  | [] => (st, [])
  | _ :: _ =>
      let targetIndex0 :=
        match target with
        | Some (GroupNode g) =>
            Js.findIndex (inGroup (GroupItem.groupPath g)) cmds
        | Some (CommandNode c) => Z.of_nat (CommandItem.index c)
        | None => findIndexOrEnd ungrouped cmds
        end in
      let targetIndex :=
        if (targetIndex0 =? -1)%Z then Z.of_nat (length cmds)
        else targetIndex0 in
      let sourceIndices :=
        Js.sortDescending (memberIndices (inGroup sourceGroupPath) cmds) in
      let '(cmds1, removed) := foldl removeStep (cmds, []) sourceIndices in
      let sourcesBeforeTarget :=
        length (List.filter (fun idx => (Z.of_nat idx <? targetIndex)%Z)
                  sourceIndices) in
      let adjustedTarget := (targetIndex - Z.of_nat sourcesBeforeTarget)%Z in
      let st' := setCommands (Js.splice cmds1 adjustedTarget 0 removed).2 st in
      (st', saveCommands st' ++ [Refresh])
  end.

(** [handleDrop], lines 287-357. *)
Definition handleDrop (target : option TreeItem)
    (dataTransfer : option DragData) (st : state) : state * list Event :=
  match dataTransfer with
  | None => (st, [])
  | Some (DragGroup groupPath) => handleGroupDrop groupPath target st
  | Some (DragCommands []) => (st, [])
  | Some (DragCommands (sourceIndex :: _)) =>
      let cmds := commands st in
      match cmds !! sourceIndex with
      | None => (st, [])
      | Some sourceCmd =>
          let '(targetGroup, targetIndex) :=
            match target with
            | Some (GroupNode g) =>
                (Some (GroupItem.groupPath g),
                 findIndexOrEnd (inGroup (GroupItem.groupPath g)) cmds)
            | Some (CommandNode c) =>
                (CommandData.group (CommandItem.data c),
                 Z.of_nat (CommandItem.index c))
            | None => (None, findIndexOrEnd ungrouped cmds)
            end in
          let cmds' :=
            if bool_decide (CommandData.group sourceCmd = targetGroup)
               && negb (targetIndex =? -1)%Z
            then moveItem sourceIndex targetIndex cmds
            else
              let cmds1 :=
                <[sourceIndex := CommandData.setGroup targetGroup sourceCmd]> cmds in
              if negb (targetIndex =? -1)%Z
                 && negb (targetIndex =? Z.of_nat sourceIndex)%Z
              then moveItem sourceIndex targetIndex cmds1
              else cmds1 in
          let st' := setCommands cmds' st in
          (st', saveCommands st' ++ [Refresh])
      end
  end.

(** [isGroupExpanded], lines 219-221. *)
Definition isGroupExpanded (groupPath : string) (st : state) : bool :=
  bool_decide (groupPath ∈ expandedGroups st).

(** [getGroupCommandCount], lines 525-530; an array argument, even an
    empty one, is truthy and is the one counted. *)
Definition getGroupCommandCount (groupPath : string)
    (commandsList : option (list CommandData.t)) (st : state) : nat :=
  let cmds := default (commands st) commandsList in
  length (List.filter (inGroup groupPath) cmds).

Section Search.

(** [String.prototype.toLowerCase] is left to the host. *)
Variable toLowerCase : string -> string.

(** [matchesSearch], lines 239-266. *)
Definition matchesSearch (st : state) (cmd : CommandData.t) : bool :=
  let has (s : string) := Js.includes (toLowerCase s) (searchFilter st) in
  if negb (Js.truthy (searchFilter st)) then true
  else if has (CommandData.name cmd) then true
  else if match CommandData.group cmd with
          | Some g => Js.truthy g && has g
          | None => false
          end then true
  else if match CommandData.commands cmd with
          | Some cs => existsb has cs
          | None => false
          end then true
  else if existsb (fun u => has (UrlItem.url u)) (effectiveUrls cmd) then true
  else if existsb (fun p => has (ProgramItem.path p)) (searchPrograms cmd)
       then true
  else false.

(** [this.searchFilter ? this.commands.filter(...) : this.commands] *)
Definition filteredCommands (st : state) : list CommandData.t :=
  if Js.truthy (searchFilter st)
  then List.filter (matchesSearch st) (commands st)
  else commands st.

(** The group node built for [path] by both levels of the tree. *)
Definition groupNode (st : state) (path : string) : TreeItem :=
  let count := getGroupCommandCount path (Some (filteredCommands st)) st in
  let isExpanded :=
    if Js.truthy (searchFilter st) then true else isGroupExpanded path st in
  GroupNode (GroupItem.new path isExpanded (Some count)).

(** One turn of the first loop of [getRootItems], lines 543-551. *)
Definition collectTop (acc : gset string * list string)
    (cmd : CommandData.t) : gset string * list string :=
  let '(seenGroups, tops) := acc in
  match CommandData.group cmd with
  | Some g =>
      if Js.truthy g then
        let topGroup := Js.firstSegment "/" g in
        if bool_decide (topGroup ∈ seenGroups)
        then (seenGroups, tops)
        else ({[topGroup]} ∪ seenGroups, tops ++ [topGroup])
      else (seenGroups, tops)
  | None => (seenGroups, tops)
  end.

Definition topLevelGroups (st : state) : list string :=
  (foldl collectTop (∅, []) (filteredCommands st)).2.

(** [getRootItems], lines 532-569. *)
Definition getRootItems (st : state) : list TreeItem :=
  (groupNode st <$> topLevelGroups st)
  ++ omap (fun '(index, cmd) =>
             if ungrouped cmd && matchesSearch st cmd
             then Some (CommandNode (CommandItem.new cmd index))
             else None)
          (imap (fun index cmd => (index, cmd)) (commands st)).

(** One turn of the [forEach] of [getGroupChildren], lines 583-606:
    the direct children and the subgroups in order of first
    appearance. *)
Definition scanStep (groupPath : string) (st : state)
    (acc : list TreeItem * list string * gset string)
    (entry : nat * CommandData.t)
    : list TreeItem * list string * gset string :=
  let '(items, subGroups, seenSubGroups) := acc in
  let '(index, cmd) := entry in
  let prefix := groupPath +:+ "/" in
  match CommandData.group cmd with
  | None => acc
  | Some g =>
      if negb (Js.truthy g) then acc
      else if Js.truthy (searchFilter st) && negb (matchesSearch st cmd)
      then acc
      else if String.eqb g groupPath
      then (items ++ [CommandNode (CommandItem.new cmd index)],
            subGroups, seenSubGroups)
      else if Js.startsWith g prefix then
        let remaining := Js.slice (String.length prefix) g in
        let nextGroup := Js.firstSegment "/" remaining in
        let fullSubGroup := groupPath +:+ "/" +:+ nextGroup in
        if bool_decide (fullSubGroup ∈ seenSubGroups)
        then acc
        else (items, subGroups ++ [fullSubGroup],
              {[fullSubGroup]} ∪ seenSubGroups)
      else acc
  end.

Definition groupScan (groupPath : string) (st : state)
    : list TreeItem * list string * gset string :=
  foldl (scanStep groupPath st) ([], [], ∅)
        (imap (fun index cmd => (index, cmd)) (commands st)).

(** [getGroupChildren], lines 571-618. *)
Definition getGroupChildren (groupPath : string) (st : state)
    : list TreeItem :=
  let '(items, subGroups, _) := groupScan groupPath st in
  (groupNode st <$> subGroups) ++ items.

(** [getChildren], lines 510-522. *)
Definition getChildren (element : option TreeItem) (st : state)
    : list TreeItem :=
  match element with
  | None => getRootItems st
  | Some (GroupNode g) => getGroupChildren (GroupItem.groupPath g) st
  | Some (CommandNode _) => []
  end.

End Search.

(** What the import dialog, the file and the quick pick give back. *)
Inductive ImportedCommands :=
  | CommandsMissing
  | CommandsNotArray (isTruthy : bool)
  | CommandsArray (cmds : list CommandData.t).

Inductive ImportedFile :=
  | Unreadable (error : string)
  | Parsed (importedCommands : ImportedCommands).

Inductive ImportAction := Merge | Replace.

(** [!imported.commands || !Array.isArray(imported.commands)] *)
Definition invalidImport (v : ImportedCommands) : bool :=
  let truthy := match v with
                | CommandsMissing => false
                | CommandsNotArray t => t
                | CommandsArray _ => true
                end in
  let isArray := match v with CommandsArray _ => true | _ => false end in
  negb truthy || negb isArray.

(** The key of the merge, [c.group || ''] then [::] then the name. *)
Definition mergeKey (c : CommandData.t) : string :=
  (match CommandData.group c with
   | Some g => g
   | None => EmptyString
   end) +:+ "::" +:+ CommandData.name c.

(** The merge loop, lines 882-893: the store afterwards and [added]. *)
Definition mergeCommands (existing imported : list CommandData.t)
    : list CommandData.t * nat :=
  let existingKeys : gset string := list_to_set (mergeKey <$> existing) in
  let '(cmds, _, added) :=
    foldl (fun '(cmds, keys, added) cmd =>
             if bool_decide (mergeKey cmd ∈ keys) then (cmds, keys, added)
             else (cmds ++ [cmd], {[mergeKey cmd]} ∪ keys, S added))
          (existing, existingKeys, 0) imported in
  (cmds, added).

(** [importConfig], lines 843-906. *)
Definition importConfig (uris : option string) (file : ImportedFile)
    (action : option ImportAction) (st : state) : state * list Event :=
  match uris with
  | None => (st, [])
  | Some _ =>
      match file with
      | Unreadable error =>
          (st, [ShowErrorMessage ("Failed to import config: " +:+ error)])
      | Parsed imported =>
          if invalidImport imported
          then (st, [ShowErrorMessage
                       "Invalid config file: missing commands array"])
          else
            let importedCommands :=
              match imported with CommandsArray l => l | _ => [] end in
            match action with
            | None => (st, [])
            | Some Replace =>
                let st' := setCommands importedCommands st in
                (st', saveCommands st' ++ [Refresh] ++
                      [ShowInformationMessage
                         ("Replaced with " +:+ pretty (length importedCommands)
                          +:+ " commands")])
            | Some Merge =>
                let '(cmds, added) :=
                  mergeCommands (commands st) importedCommands in
                let st' := setCommands cmds st in
                (st', [ShowInformationMessage
                         ("Added " +:+ pretty added +:+ " new commands ("
                          +:+ pretty (length importedCommands - added)
                          +:+ " duplicates skipped)")]
                      ++ saveCommands st' ++ [Refresh])
            end
      end
  end.

(** [getParent], lines 496-508; [new GroupItem(path)] is collapsed and
    carries no count. *)
Definition getParent (element : TreeItem) : option GroupItem.t :=
  match element with
  | GroupNode g =>
      let parts := Js.split "/" (GroupItem.groupPath g) in
      if (1 <? length parts)%nat
      then Some (GroupItem.new
                   (Js.join "/" (take (length parts - 1) parts)) false None)
      else None
  | CommandNode c =>
      match CommandData.group (CommandItem.data c) with
      | Some g => if Js.truthy g then Some (GroupItem.new g false None) else None
      | None => None
      end
  end.

(** [deleteCommand], lines 783-794; [confirmed] says that the user chose
    [Delete] in the modal warning. *)
Definition deleteCommand (confirmed : bool) (item : CommandItem.t)
    (st : state) : state * list Event :=
  if confirmed then
    let st' :=
      setCommands
        (Js.splice (commands st) (Z.of_nat (CommandItem.index item)) 1 []).2
        st in
    (st', saveCommands st' ++ [Refresh])
  else (st, []).

(** [duplicateCommand], lines 796-808; the copy through JSON is a copy of
    every field. *)
Definition duplicateCommand (item : CommandItem.t) (st : state)
    : state * list Event :=
  match commands st !! CommandItem.index item with
  | None => (st, [])
  | Some original =>
      let copy :=
        CommandData.setName (CommandData.name original +:+ " (copy)")
          original in
      let st' :=
        setCommands
          (Js.splice (commands st) (Z.of_nat (CommandItem.index item + 1)) 0
             [copy]).2
          st in
      (st', saveCommands st' ++ [Refresh])
  end.

(** The set that [getAllGroups], lines 626-635, and [expandAll], lines
    641-650, build before they sort it: the group of every grouped action
    and all its parent paths. *)
Definition allGroupPaths (st : state) : gset string :=
  foldl (fun (groups : gset string) cmd =>
           match CommandData.group cmd with
           | Some g =>
               if Js.truthy g then
                 let parts := Js.split "/" g in
                 foldl (fun (groups : gset string) i =>
                          {[Js.join "/" (take i parts)]} ∪ groups)
                       groups (seq 1 (length parts))
               else groups
           | None => groups
           end)
        ∅ (commands st).

End ListProvider.

(** ** The execution dispatcher ([extension.ts], the [cmdrun.run] handler) *)

Definition dquote : string := String (ascii_of_nat 34) EmptyString.

(** An entry of the dispatcher's program list: [args?: string | string[]]. *)
Module LaunchItem.
Record t := mk {
  path : string;
  args : option (string + list string)
}.
End LaunchItem.

Module Extension.

(** What the dispatcher asks of the host and of the operating system. *)
Inductive Effect :=
  | CreateTerminal (name : string) (env : option (gmap string string))
  | TerminalShow
  | SendText (text : string)
  | Delay (ms : nat)
  | Exec (command : string)
  | SimpleBrowserShow (url : string)
  | External (launch : list string).

(** [cmdData.commands.join(' && ')], line 55. *)
Definition cmdJoined (cmds : list string) : string := Js.join " && " cmds.

(** [cmdData.commands.join('; ')], line 56. *)
Definition psJoined (cmds : list string) : string := Js.join "; " cmds.

(** Line 188. *)
Definition runUrls (c : CommandData.t) : list UrlItem.t := effectiveUrls c.

(** Lines 213-214: the deprecated token array is kept as it is here and
    joined when the program is launched. *)
Definition runPrograms (c : CommandData.t) : list LaunchItem.t :=
  match CommandData.programs c with
  | Some ps =>
      (fun p => LaunchItem.mk (ProgramItem.path p) (inl <$> ProgramItem.args p))
        <$> ps
  | None =>
      match CommandData.program c with
      | Some p =>
          if Js.truthy p
          then [LaunchItem.mk p (inr <$> CommandData.args c)]
          else []
      | None => []
      end
  end.

(** Line 221. *)
Definition argsStr (prog : LaunchItem.t) : string :=
  match LaunchItem.args prog with
  | Some (inr tokens) => Js.join " " tokens
  | Some (inl s) => if Js.truthy s then s else EmptyString
  | None => EmptyString
  end.

(** Lines 223-224. *)
Definition fullCmd (prog : LaunchItem.t) : string :=
  let quotedPath :=
    if Js.includes (LaunchItem.path prog) " "
    then dquote +:+ LaunchItem.path prog +:+ dquote
    else LaunchItem.path prog in
  if Js.truthy (argsStr prog) then quotedPath +:+ " " +:+ argsStr prog
  else quotedPath.

(** The path and the argument string each program is launched with. *)
Definition launched (c : CommandData.t) : list (string * string) :=
  (fun prog => (LaunchItem.path prog, argsStr prog)) <$> runPrograms c.

Section Run.

(** [process.platform] *)
Variable platform : string.

(** The external-terminal branch, lines 59-158, reads the profile
    name, the two flags and the two joined strings and spawns a
    terminal from them; how it does so is left to this parameter. *)
Variable launchExternal :
  option string -> bool -> bool -> string -> string -> list string.

(** The internal terminal, lines 160-183. *)
Definition internalTerminal (c : CommandData.t) (cmds : list string)
    : list Effect :=
  let internalCommands :=
    if String.eqb platform "win32" then psJoined cmds else cmdJoined cmds in
  [CreateTerminal (CommandData.name c) (CommandData.env c); TerminalShow;
   SendText
     (if truthyFlag (CommandData.autoClose c) then
        if String.eqb platform "win32"
        then "try { " +:+ psJoined cmds +:+ " } finally { exit }"
        else "trap 'exit' INT; " +:+ cmdJoined cmds +:+ "; exit"
      else internalCommands)].

(** Lines 53-185. *)
Definition runShell (c : CommandData.t) : list Effect :=
  match CommandData.commands c with
  | Some (cmd :: rest) =>
      let cmds := cmd :: rest in
      if truthyFlag (CommandData.externalTerminal c)
      then [External (launchExternal (CommandData.terminalProfile c)
                        (truthyFlag (CommandData.runAsAdmin c))
                        (truthyFlag (CommandData.autoClose c))
                        (cmdJoined cmds) (psJoined cmds))]
      else internalTerminal c cmds
  | _ => []
  end.

(** Lines 195-209. *)
Definition openUrl (urlItem : UrlItem.t) : Effect :=
  let url := UrlItem.url urlItem in
  if bool_decide (UrlItem.external urlItem = Some true) then
    if String.eqb platform "win32"
    then Exec ("start " +:+ dquote +:+ dquote +:+ " "
               +:+ dquote +:+ url +:+ dquote)
    else if String.eqb platform "darwin"
    then Exec ("open " +:+ dquote +:+ url +:+ dquote)
    else Exec ("xdg-open " +:+ dquote +:+ url +:+ dquote)
  else SimpleBrowserShow url.

(** Lines 189-210: a pause of 100 ms before every URL but the first. *)
Definition openUrls (urls : list UrlItem.t) : list Effect :=
  mjoin (imap (fun i urlItem =>
                 (if (0 <? i)%nat then [Delay 100] else [])
                 ++ [openUrl urlItem])
              urls).

(** Lines 216-233. *)
Definition launchPrograms (programs : list LaunchItem.t) : list Effect :=
  (fun prog => Exec (fullCmd prog)) <$> programs.

(** The [cmdrun.run] handler, lines 46-234, on the action that
    [getCommandData] returned. *)
Definition run (cmdData : option CommandData.t) : list Effect :=
  match cmdData with
  | None => []
  | Some c =>
      runShell c ++ openUrls (runUrls c) ++ launchPrograms (runPrograms c)
  end.

End Run.

End Extension.

(** ** External terminals ([listProvider.ts], lines 15-19 and 37-102;
       [extension.ts], lines 59-158) *)

Module TerminalProfile.
Record t := mk {
  name : string;
  path : string;
  args : option (list string)
}.
End TerminalProfile.

Module Terminal.

Definition dquoteChar : ascii := ascii_of_nat 34.

(** What starts the terminal: [exec(command)], or [spawn(file, args)]
    detached, with or without a shell. *)
Inductive Launch :=
  | ExecLine (command : string)
  | Spawn (file : string) (args : list string) (shell : bool).

(** The escaping of line 135, three global replacements in this order:
    a backslash is doubled, a double quote gets a backslash before it, a
    single quote becomes quote, backslash, quote, quote. *)
Definition escapeMac (s : string) : string :=
  Js.replaceAll "'" "'\''"
    (Js.replaceAll dquoteChar ("\" +:+ dquote)
       (Js.replaceAll "\" "\\" s)).

(** Line 143: as above without the doubling of backslashes. *)
Definition escapeLinux (s : string) : string :=
  Js.replaceAll "'" "'\''" (Js.replaceAll dquoteChar ("\" +:+ dquote) s).

(** [s.replace(/'/g, "''")], lines 79, 85 and 103. *)
Definition doubleQuotes (s : string) : string := Js.replaceAll "'" "''" s.

Section Profiles.

(** [process.platform] *)
Variable platform : string.

(** [process.env], [fs.existsSync] and [path.join] *)
Variable env : string -> option string.
Variable existsSync : string -> bool.
Variable pathJoin : list string -> string.

(** [process.env.X || ''] *)
Definition envOr (key : string) : string :=
  match env key with
  | Some v => v
  | None => EmptyString
  end.

(** The loops of lines 58-63, 72-77 and 83-88: the first path that
    exists, if any. *)
Definition firstExisting (paths : list string) : option string :=
  List.find existsSync paths.

(** [getTerminalProfiles], lines 38-102. *)
Definition getTerminalProfiles : list TerminalProfile.t :=
  if String.eqb platform "win32" then
    [TerminalProfile.mk "Command Prompt" "cmd.exe" (Some ["/k"]);
     TerminalProfile.mk "PowerShell" "powershell.exe"
       (Some ["-NoExit"; "-Command"])]
    ++ match firstExisting
               [pathJoin [envOr "ProgramFiles"; "PowerShell"; "7"; "pwsh.exe"];
                pathJoin [envOr "ProgramFiles(x86)"; "PowerShell"; "7";
                          "pwsh.exe"];
                pathJoin [envOr "LOCALAPPDATA"; "Microsoft"; "WindowsApps";
                          "pwsh.exe"]] with
       | Some p =>
           [TerminalProfile.mk "PowerShell 7" p (Some ["-NoExit"; "-Command"])]
       | None => []
       end
    ++ match firstExisting
               [pathJoin [envOr "ProgramFiles"; "Git"; "bin"; "bash.exe"];
                pathJoin [envOr "ProgramFiles(x86)"; "Git"; "bin"; "bash.exe"];
                "C:\Program Files\Git\bin\bash.exe";
                "C:\Program Files (x86)\Git\bin\bash.exe"] with
       | Some p => [TerminalProfile.mk "Git Bash" p (Some ["-c"])]
       | None => []
       end
    ++ match firstExisting
               [pathJoin [envOr "LOCALAPPDATA"; "Microsoft"; "WindowsApps";
                          "wt.exe"]] with
       | Some _ =>
           [TerminalProfile.mk "Windows Terminal" "wt"
              (Some ["-d"; "."; "cmd"; "/k"])]
       | None => []
       end
  else if String.eqb platform "darwin" then
    [TerminalProfile.mk "Terminal" "Terminal.app" (Some []);
     TerminalProfile.mk "iTerm2" "iTerm.app" (Some [])]
  else
    [TerminalProfile.mk "GNOME Terminal" "gnome-terminal" (Some ["--"]);
     TerminalProfile.mk "Konsole" "konsole" (Some ["-e"]);
     TerminalProfile.mk "xterm" "xterm" (Some ["-e"]);
     TerminalProfile.mk "xfce4-terminal" "xfce4-terminal" (Some ["-e"])].

(** Lines 64-66: the profile of the requested name, or the first one. *)
Definition selectProfile (profiles : list TerminalProfile.t)
    (terminalProfile : option string) : option TerminalProfile.t :=
  if truthyOpt terminalProfile
  then List.find
         (fun p => bool_decide (Some (TerminalProfile.name p) = terminalProfile))
         profiles
  else head profiles.

(** [selectedProfile?.path || fallback] *)
Definition pathOr (fallback : string) (selected : option TerminalProfile.t)
    : string :=
  match selected with
  | Some p =>
      if Js.truthy (TerminalProfile.path p) then TerminalProfile.path p
      else fallback
  | None => fallback
  end.

(** The Windows branch, lines 68-132. *)
Definition launchWindows (selected : option TerminalProfile.t)
    (runAsAdmin autoClose : bool) (cmdJoined psJoined : string) : Launch :=
  let termPath := pathOr "cmd.exe" selected in
  let isPowerShell :=
    Js.includes termPath "powershell" || Js.includes termPath "pwsh" in
  let isBash := Js.includes termPath "bash" in
  let isWindowsTerminal :=
    String.eqb termPath "wt" || Js.includes termPath "wt.exe" in
  let shellCommands :=
    if isPowerShell && negb isWindowsTerminal then psJoined else cmdJoined in
  let cmdSwitch := if autoClose then "/c" else "/k" in
  let elevated (what : string) :=
    ExecLine ("powershell -Command " +:+ dquote +:+ "Start-Process " +:+ what
              +:+ " -Verb RunAs" +:+ dquote) in
  if runAsAdmin then
    let escapedCmd :=
      Js.replaceAll dquoteChar ("`" +:+ dquote) (doubleQuotes shellCommands) in
    if isWindowsTerminal then
      elevated ("wt -ArgumentList 'cmd " +:+ cmdSwitch +:+ " "
                +:+ doubleQuotes cmdJoined +:+ "'")
    else if isPowerShell then
      if autoClose
      then elevated (termPath +:+ " -ArgumentList '-Command " +:+ escapedCmd
                     +:+ "'")
      else elevated (termPath +:+ " -ArgumentList '-NoExit -Command "
                     +:+ escapedCmd +:+ "'")
    else if isBash then
      let bashCmd := Js.replaceAll "'" "'\''" cmdJoined in
      if autoClose
      then elevated ("'" +:+ termPath +:+ "' -ArgumentList '-c','" +:+ bashCmd
                     +:+ "'")
      else elevated ("'" +:+ termPath +:+ "' -ArgumentList '-c','" +:+ bashCmd
                     +:+ "; read'")
    else
      elevated ("cmd -ArgumentList '" +:+ cmdSwitch +:+ " "
                +:+ doubleQuotes cmdJoined +:+ "'")
  else
    if isWindowsTerminal then
      Spawn "wt" ["cmd"; cmdSwitch; cmdJoined] true
    else if isPowerShell then
      if autoClose
      then Spawn "cmd" ["/c"; "start"; termPath; "-Command"; psJoined] true
      else Spawn "cmd" ["/c"; "start"; termPath; "-NoExit"; "-Command"; psJoined]
             true
    else if isBash then
      if autoClose
      then Spawn "cmd" ["/c"; "start"; termPath; "-c"; cmdJoined] true
      else Spawn "cmd"
             ["/c"; "start"; termPath; "-c";
              cmdJoined +:+ "; read -p 'Press Enter to close...'"] true
    else Spawn "cmd" ["/c"; "start"; "cmd"; cmdSwitch; cmdJoined] true.

(** The macOS branch, lines 133-140. *)
Definition launchMac (selected : option TerminalProfile.t)
    (cmdJoined : string) : Launch :=
  let escaped := escapeMac cmdJoined in
  if bool_decide (TerminalProfile.name <$> selected = Some "iTerm2")
  then ExecLine ("osascript -e 'tell app " +:+ dquote +:+ "iTerm" +:+ dquote
                 +:+ " to create window with default profile command "
                 +:+ dquote +:+ escaped +:+ dquote +:+ "'")
  else ExecLine ("osascript -e 'tell app " +:+ dquote +:+ "Terminal" +:+ dquote
                 +:+ " to do script " +:+ dquote +:+ escaped +:+ dquote +:+ "'").

(** The branch of the other platforms, lines 141-158. *)
Definition launchLinux (selected : option TerminalProfile.t)
    (cmdJoined : string) : Launch :=
  let escaped := escapeLinux cmdJoined in
  let termPath := pathOr "gnome-terminal" selected in
  if String.eqb termPath "gnome-terminal"
  then Spawn "gnome-terminal" ["--"; "bash"; "-c"; escaped +:+ "; exec bash"]
         false
  else if String.eqb termPath "konsole"
  then Spawn "konsole" ["-e"; "bash"; "-c"; escaped +:+ "; exec bash"] false
  else if String.eqb termPath "xfce4-terminal"
  then Spawn "xfce4-terminal"
         ["-e"; "bash -c '" +:+ escaped +:+ "; exec bash'"] false
  else if String.eqb termPath "xterm"
  then Spawn "xterm" ["-e"; "bash"; "-c"; escaped +:+ "; exec bash"] false
  else ExecLine (termPath +:+ " -e bash -c " +:+ dquote +:+ escaped
                 +:+ "; exec bash" +:+ dquote).

(** The external-terminal branch of the run handler, lines 59-158. *)
Definition externalTerminal (terminalProfile : option string)
    (runAsAdmin autoClose : bool) (cmdJoined psJoined : string) : Launch :=
  let selected := selectProfile getTerminalProfiles terminalProfile in
  if String.eqb platform "win32"
  then launchWindows selected runAsAdmin autoClose cmdJoined psJoined
  else if String.eqb platform "darwin"
  then launchMac selected cmdJoined
  else launchLinux selected cmdJoined.

End Profiles.

End Terminal.

(** ** The command form ([commandForm.ts], lines 853-860) *)

Module CommandForm.

(** [_escapeHtml] *)
Definition escapeHtml (text : string) : string :=
  Js.replaceAll "'" "&#039;"
    (Js.replaceAll Terminal.dquoteChar "&quot;"
       (Js.replaceAll ">" "&gt;"
          (Js.replaceAll "<" "&lt;"
             (Js.replaceAll "&" "&amp;" text)))).

End CommandForm.

(** ** Scenarios of the written specification *)

Module Scenario.
Import ListProvider.

Definition store (cmds : list CommandData.t) : state :=
  mkState cmds ∅ EmptyString (Some "cmdrun.json").

(** Simple move: [A] has no group, [B] and [C] are in group [X]. *)
Definition A := CommandData.simple "A" None.
Definition B := CommandData.simple "B" (Some "X").
Definition C := CommandData.simple "C" (Some "X").
Definition AinX := CommandData.simple "A" (Some "X").

(** Group move to root: [A] in [G], [B] in [G/Sub], [C] ungrouped. *)
Definition GA := CommandData.simple "A" (Some "G").
Definition GB := CommandData.simple "B" (Some "G/Sub").
Definition GC := CommandData.simple "C" None.

(** Drop on empty space: [A] in [X], [B] and [C] ungrouped. *)
Definition RA := CommandData.simple "A" (Some "X").
Definition RB := CommandData.simple "B" None.
Definition RC := CommandData.simple "C" None.
Definition RAroot := CommandData.simple "A" None.

(** Drag of several actions: [A], [B] and [C] ungrouped, [D] in [X]. *)
Definition MA := CommandData.simple "A" None.
Definition MB := CommandData.simple "B" None.
Definition MC := CommandData.simple "C" None.
Definition MD := CommandData.simple "D" (Some "X").
Definition MAinX := CommandData.simple "A" (Some "X").

(** An action run in the internal terminal, closing it afterwards. *)
Definition autoClosing : CommandData.t :=
  CommandData.mk "build" None (Some ["a"; "b"]) (Some true) None None None
    None None None None None None.

(** An action that keeps the terminal open. *)
Definition interactive : CommandData.t :=
  CommandData.mk "build" None (Some ["a"; "b"]) None None None None
    None None None None None None.

(** Actions in the old and in the new shape. *)
Definition legacyUrl (u : string) : CommandData.t :=
  CommandData.mk "docs" None None None None None None None None (Some u)
    None None None.

Definition legacyProgram : CommandData.t :=
  CommandData.mk "editor" None None None None None None None None None
    None (Some "code") (Some ["-n"; "."]).

Definition newShape : CommandData.t :=
  CommandData.mk "both" (Some "Dev") None None None None None None
    (Some [UrlItem.mk "http://localhost" (Some true)]) (Some "http://old")
    (Some [ProgramItem.mk "code" (Some "-n .")]) (Some "vi") (Some ["x"]).

(** An external-terminal launcher that records what it was given. *)
Definition recordLaunch (profile : option string) (admin autoClose : bool)
    (cmdJoined psJoined : string) : list string :=
  [cmdJoined; psJoined].
End Scenario.

(** ** The words of the specification *)

Module Spec.

(** An action whose group equals [P] or starts with [P] followed by a
    slash. *)
Definition memberOf (P : string) (c : CommandData.t) : Prop :=
  exists g, CommandData.group c = Some g
            /\ (g = P \/ exists rest, g = P +:+ "/" +:+ rest).

(** [countOf Q l n]: exactly [n] entries of [l] satisfy [Q]. *)
Inductive countOf (Q : CommandData.t -> Prop)
    : list CommandData.t -> nat -> Prop :=
  | countOf_nil : countOf Q [] 0
  | countOf_hit c l n : Q c -> countOf Q l n -> countOf Q (c :: l) (S n)
  | countOf_miss c l n : ~ Q c -> countOf Q l n -> countOf Q (c :: l) n.

End Spec.

(** ** What one level of the tree holds *)

Module TreeSpec.

(** The entries of a list in order of first appearance, each once. *)
Fixpoint firstAppearances (l : list string) : list string :=
  match l with
  | [] => []
  | x :: l' => x :: filter (fun y => y <> x) (firstAppearances l')
  end.

(** The paths of the group nodes of a list of tree items, in order. *)
Definition groupPathsOf (items : list TreeItem) : list string :=
  omap (fun item => match item with
                    | GroupNode g => Some (GroupItem.groupPath g)
                    | CommandNode _ => None
                    end) items.

(** The command items of a list of tree items, in order. *)
Definition commandItemsOf (items : list TreeItem) : list CommandItem.t :=
  omap (fun item => match item with
                    | CommandNode c => Some c
                    | GroupNode _ => None
                    end) items.

(** The first segment of the group of a grouped action. *)
Definition topOf (c : CommandData.t) : option string :=
  match CommandData.group c with
  | Some g => if Js.truthy g then Some (Js.firstSegment "/" g) else None
  | None => None
  end.

(** The subgroup of [P] that holds an action grouped strictly under [P]:
    [P], a slash, and the next segment of the action's group. *)
Definition subOf (P : string) (c : CommandData.t) : option string :=
  match CommandData.group c with
  | Some g =>
      if Js.truthy g && negb (String.eqb g P) && Js.startsWith g (P +:+ "/")
      then Some (P +:+ "/" +:+
                 Js.firstSegment "/" (Js.slice (String.length (P +:+ "/")) g))
      else None
  | None => None
  end.

(** An action grouped exactly in the non-empty group [P]. *)
Definition directIn (P : string) (c : CommandData.t) : bool :=
  match CommandData.group c with
  | Some g => Js.truthy g && String.eqb g P
  | None => false
  end.

(** The paths a level of the tree is built from, in store order:
    at the root the top segments of the matching grouped actions, under a
    group the subgroups that hold its matching descendants. *)
Definition levelSegments (matching : CommandData.t -> bool)
    (element : option TreeItem) (cmds : list CommandData.t) : list string :=
  match element with
  | None => omap topOf (List.filter matching cmds)
  | Some (GroupNode g) =>
      omap (subOf (GroupItem.groupPath g)) (List.filter matching cmds)
  | Some (CommandNode _) => []
  end.

(** Whether an action is shown as a command node of a level. *)
Definition shownAt (element : option TreeItem) (c : CommandData.t) : bool :=
  match element with
  | None => ListProvider.ungrouped c
  | Some (GroupNode g) => directIn (GroupItem.groupPath g) c
  | Some (CommandNode _) => false
  end.

End TreeSpec.

(** ** What a change of the store owes its host *)

Module StoreSpec.

(** An operation that started in [st] and gave [r] has kept the rest of
    the provider, has written nothing but the store it left (to the
    configuration file of the workspace), and has not changed the store
    without asking for a refresh and, in a workspace, writing it. *)
Definition persisted (st : ListProvider.state)
    (r : ListProvider.state * list Event) : Prop :=
  ListProvider.expandedGroups r.1 = ListProvider.expandedGroups st
  /\ ListProvider.searchFilter r.1 = ListProvider.searchFilter st
  /\ ListProvider.configPath r.1 = ListProvider.configPath st
  /\ (forall p cmds, WriteConfig p cmds ∈ r.2 ->
         ListProvider.configPath st = Some p
         /\ cmds = ListProvider.commands r.1)
  /\ (ListProvider.commands r.1 <> ListProvider.commands st ->
         Refresh ∈ r.2
         /\ forall p, ListProvider.configPath st = Some p ->
              WriteConfig p (ListProvider.commands r.1) ∈ r.2).

End StoreSpec.

(** ** Reading escaped text *)

Module EscapeSpec.

(** Reading a text from the left, where a backslash takes the character
    after it with it: whether a double quote is met on its own, or a
    backslash is left at the very end with nothing to take. *)
Fixpoint bareQuote (s : string) : bool :=
  match s with
  | EmptyString => false
  | String c s' =>
      if Ascii.eqb c "\" then
        match s' with
        | EmptyString => true
        | String _ s'' => bareQuote s''
        end
      else if Ascii.eqb c Terminal.dquoteChar then true
      else bareQuote s'
  end.

(** Whether the character [c] occurs in [s]. *)
Fixpoint occurs (c : ascii) (s : string) : bool :=
  match s with
  | EmptyString => false
  | String x s' => Ascii.eqb x c || occurs c s'
  end.

(** What [_escapeHtml] writes for one character. *)
Definition htmlEntity (x : ascii) : string :=
  if Ascii.eqb x "&" then "&amp;"
  else if Ascii.eqb x "<" then "&lt;"
  else if Ascii.eqb x ">" then "&gt;"
  else if Ascii.eqb x Terminal.dquoteChar then "&quot;"
  else if Ascii.eqb x "'" then "&#039;"
  else String x EmptyString.

End EscapeSpec.

(** * Properties *)

(** ** Strings *)

Lemma append_nil (b : string) : EmptyString +:+ b = b.
Proof. reflexivity. Qed.

Lemma append_cons (x : ascii) (a b : string) :
  String x a +:+ b = String x (a +:+ b).
Proof. reflexivity. Qed.

Lemma append_assoc (a b c : string) : (a +:+ b) +:+ c = a +:+ b +:+ c.
Proof.
  induction a as [|x a IH]; [reflexivity|].
  now rewrite !append_cons, IH.
Qed.

Lemma startsWith_iff (s p : string) :
  Js.startsWith s p = true <-> exists rest, s = p +:+ rest.
Proof.
  revert s. induction p as [|a p IH]; intros s; cbn.
  - split; [intros _; now exists s | reflexivity].
  - destruct s as [|b s].
    + split; [discriminate | intros [rest H]; discriminate].
    + rewrite andb_true_iff, Ascii.eqb_eq, IH. split.
      * intros [-> [rest ->]]. now exists rest.
      * intros [rest H]. rewrite append_cons in H. injection H as -> ->.
        split; [reflexivity | now exists rest].
Qed.

Lemma startsWith_slice (s p : string) :
  Js.startsWith s p = true -> s = p +:+ Js.slice (String.length p) s.
Proof.
  revert s. induction p as [|a p IH]; intros s; cbn; [reflexivity|].
  destruct s as [|b s]; [discriminate|].
  rewrite andb_true_iff, Ascii.eqb_eq. intros [-> H].
  now rewrite append_cons, <- IH.
Qed.

(** A string is its first segment, alone or followed by a slash. *)
Lemma firstSegment_prefix (s : string) :
  s = Js.firstSegment "/" s
  \/ exists rest, s = Js.firstSegment "/" s +:+ "/" +:+ rest.
Proof.
  unfold Js.firstSegment. induction s as [|c s IH]; cbn; [now left|].
  destruct (Ascii.eqb_spec c "/") as [->|Hc].
  - right. now exists s.
  - destruct (Js.split "/" s) as [|w ws];
      (destruct IH as [->| [rest ->]]; [now left|]; right; now exists rest).
Qed.

Lemma inGroup_iff (P : string) (c : CommandData.t) :
  ListProvider.inGroup P c = true <-> Spec.memberOf P c.
Proof.
  unfold ListProvider.inGroup, Spec.memberOf.
  destruct (CommandData.group c) as [g|].
  - rewrite orb_true_iff, andb_true_iff, String.eqb_eq, startsWith_iff. split.
    + intros [->| [_ [rest ->]]]; eexists; (split; [reflexivity|]).
      * now left.
      * right. exists rest. apply append_assoc.
    + intros (g0 & [= <-] & [->| [rest ->]]); [now left|]. right. split.
      * destruct P; reflexivity.
      * exists rest. symmetry. apply append_assoc.
  - split; [discriminate | intros (g & H & _); discriminate].
Qed.

(** ** Splicing *)

Lemma setGroup_same (a : CommandData.t) :
  CommandData.setGroup (CommandData.group a) a = a.
Proof. now destruct a. Qed.

Lemma spliceStart_le (len : nat) (start : Z) :
  Js.spliceStart len start <= len.
Proof.
  unfold Js.spliceStart. destruct (Z.ltb_spec start 0); lia.
Qed.

Lemma splice_remove_one (l : list CommandData.t) (i : nat) (a : CommandData.t) :
  l !! i = Some a ->
  Js.splice l (Z.of_nat i) 1 [] = ([a], delete i l).
Proof.
  intros Hi. pose proof (lookup_lt_Some _ _ _ Hi) as Hlt.
  unfold Js.splice, Js.spliceStart.
  destruct (Z.ltb_spec (Z.of_nat i) 0); [lia|].
  replace (Z.to_nat (Z.min _ _)) with i by lia.
  rewrite delete_take_drop. cbn [app].
  replace (i + 1) with (S i) by lia. f_equal.
  rewrite <- (take_drop_middle l i a Hi) at 1.
  rewrite drop_app_length'; [reflexivity|].
  rewrite length_take_le; lia.
Qed.

(** [moveItem] takes the action out and puts it back at the clamped
    target. *)
Lemma moveItem_eq (i : nat) (targetIndex : Z) (l : list CommandData.t)
    (a : CommandData.t) :
  l !! i = Some a ->
  let adjustedTarget :=
    if (Z.of_nat i <? targetIndex)%Z then (targetIndex - 1)%Z
    else targetIndex in
  let s := Js.spliceStart (length (delete i l)) adjustedTarget in
  ListProvider.moveItem i targetIndex l
  = take s (delete i l) ++ a :: drop s (delete i l).
Proof.
  intros Hi. cbn zeta. unfold ListProvider.moveItem.
  rewrite (splice_remove_one l i a Hi). cbn [take].
  unfold Js.splice. cbn [snd]. now rewrite Nat.add_0_r.
Qed.

(** After [moveItem] the action is somewhere in the store and the rest
    of the store is as before. *)
Lemma moveItem_spec (i : nat) (targetIndex : Z) (l : list CommandData.t)
    (a : CommandData.t) :
  l !! i = Some a ->
  exists j, ListProvider.moveItem i targetIndex l !! j = Some a
            /\ delete j (ListProvider.moveItem i targetIndex l) = delete i l.
Proof.
  intros Hi. rewrite (moveItem_eq i targetIndex l a Hi).
  set (adj := if (Z.of_nat i <? targetIndex)%Z then _ else _).
  set (d := delete i l).
  pose proof (spliceStart_le (length d) adj) as Hle.
  set (s := Js.spliceStart (length d) adj) in *.
  exists s.
  assert (length (take s d) = s) as Hlen by now apply length_take_le.
  split.
  - apply list_lookup_middle. now symmetry.
  - pose proof (delete_middle (take s d) (drop s d) a) as Hd.
    rewrite Hlen in Hd. rewrite Hd. apply take_drop.
Qed.

Lemma delete_insert_same (l : list CommandData.t) (i : nat)
    (x : CommandData.t) :
  delete i (<[i:=x]> l) = delete i l.
Proof.
  rewrite !delete_take_drop, take_insert_ge, drop_insert_lt by lia.
  reflexivity.
Qed.

(** Two stores that agree once an entry is deleted from each agree at
    every index below both entries and at every index above both. *)
Lemma lookup_outside_span (l l' : list CommandData.t) (i j k : nat) :
  delete j l' = delete i l ->
  (k < i /\ k < j) \/ (i < k /\ j < k) ->
  l' !! k = l !! k.
Proof.
  intros Hdel [[Hi Hj]| [Hi Hj]].
  - rewrite <- (list_lookup_delete_lt l' j k), <- (list_lookup_delete_lt l i k) by lia.
    now rewrite Hdel.
  - destruct k as [|k]; [lia|].
    rewrite <- (list_lookup_delete_ge l' j k), <- (list_lookup_delete_ge l i k) by lia.
    now rewrite Hdel.
Qed.

Lemma findIndex_none (p : CommandData.t -> bool) (l : list CommandData.t) :
  (forall c, c ∈ l -> p c = false) -> Js.findIndex p l = (-1)%Z.
Proof.
  induction l as [|c l IH]; intros Hp; [reflexivity|].
  cbn. rewrite (Hp c) by now left.
  rewrite IH by (intros c' Hc'; apply Hp; now right). reflexivity.
Qed.

(** ** C1: the simple move *)

(** C1, as stated, fails: dropping [A] on the command item [B] of the
    store [A; B; C] does not give [B; A; C]. *)
Lemma simple_move_not_after_target :
  ListProvider.commands
    (ListProvider.handleDrop
       (Some (CommandNode (CommandItem.new Scenario.B 1)))
       (Some (DragCommands [0]))
       (Scenario.store [Scenario.A; Scenario.B; Scenario.C])).1
  = [Scenario.AinX; Scenario.B; Scenario.C]
  /\ [Scenario.AinX; Scenario.B; Scenario.C]
     <> [Scenario.B; Scenario.AinX; Scenario.C].
Proof. split; [reflexivity | discriminate]. Qed.

(** C1, amended: from the store [A (no group); B (group X); C (group X)],
    dropping [A] on the command item [B] (target group [X], target index 1)
    gives [A (group X); B (group X); C (group X)]: the group of [A]
    becomes [X] and [A] lands immediately before [B]; the store is then
    saved and the view refreshed. *)
Theorem simple_move_before_target :
  ListProvider.handleDrop
    (Some (CommandNode (CommandItem.new Scenario.B 1)))
    (Some (DragCommands [0]))
    (Scenario.store [Scenario.A; Scenario.B; Scenario.C])
  = (Scenario.store [Scenario.AinX; Scenario.B; Scenario.C],
     [WriteConfig "cmdrun.json" [Scenario.AinX; Scenario.B; Scenario.C];
      Refresh]).
Proof. reflexivity. Qed.

(** ** C2: the group move to root *)

(** C2: on the store [A (group G); B (group G/Sub); C (no group)], the
    drop of group [G] on empty space leaves the store as it was, [A; B; C]:
    the block is put back before the first ungrouped action, not after the
    last one as the comment of the root branch announces. *)
Theorem group_move_to_root_unchanged :
  ListProvider.commands
    (ListProvider.handleGroupDrop "G" None
       (Scenario.store [Scenario.GA; Scenario.GB; Scenario.GC])).1
  = [Scenario.GA; Scenario.GB; Scenario.GC].
Proof. reflexivity. Qed.

(** ** C3: the drop of an action on empty space *)

(** C3: on the store [A (group X); B (no group); C (no group)], dropping
    [A] on empty space clears its group but leaves it first, before the
    ungrouped actions [B] and [C], not after the last of them. *)
Theorem root_drop_before_first_ungrouped :
  ListProvider.commands
    (ListProvider.handleDrop None (Some (DragCommands [0]))
       (Scenario.store [Scenario.RA; Scenario.RB; Scenario.RC])).1
  = [Scenario.RAroot; Scenario.RB; Scenario.RC].
Proof. reflexivity. Qed.

(** What a drop on empty space does do, on every store: the group of
    the moved action is cleared, and when no action of the store is
    ungrouped the action goes to the very end. *)
Lemma root_drop_clears_group (i : nat) (rest : list nat)
    (st : ListProvider.state) (a : CommandData.t) :
  ListProvider.commands st !! i = Some a ->
  exists j,
    ListProvider.commands
      (ListProvider.handleDrop None (Some (DragCommands (i :: rest))) st).1
    !! j = Some (CommandData.setGroup None a).
Proof.
  intros Hi. pose proof (lookup_lt_Some _ _ _ Hi) as Hlt.
  unfold ListProvider.handleDrop. rewrite Hi.
  cbn [fst ListProvider.setCommands ListProvider.commands].
  set (targetIndex := ListProvider.findIndexOrEnd _ _).
  assert (<[i:=CommandData.setGroup None a]> (ListProvider.commands st) !! i
          = Some (CommandData.setGroup None a)) as Hi'
    by now apply list_lookup_insert_eq.
  cbv zeta. case_bool_decide as Hgrp; cbn [andb].
  - assert (CommandData.setGroup None a = a) as Ha
      by (rewrite <- Hgrp; apply setGroup_same).
    rewrite Ha in *. rewrite (list_insert_id _ _ _ Hi).
    destruct (moveItem_spec i targetIndex _ a Hi) as (j & Hj & _).
    destruct (negb (targetIndex =? -1)%Z); [eauto|].
    destruct (_ && _); eauto.
  - destruct (moveItem_spec i targetIndex _ _ Hi') as (j & Hj & _).
    destruct (_ && _); eauto.
Qed.

Lemma root_drop_at_end_when_all_grouped (i : nat) (rest : list nat)
    (st : ListProvider.state) (a : CommandData.t) :
  (forall c, c ∈ ListProvider.commands st -> ListProvider.ungrouped c = false) ->
  ListProvider.commands st !! i = Some a ->
  ListProvider.commands
    (ListProvider.handleDrop None (Some (DragCommands (i :: rest))) st).1
  = delete i (ListProvider.commands st) ++ [CommandData.setGroup None a].
Proof.
  intros Hall Hi. pose proof (lookup_lt_Some _ _ _ Hi) as Hlt.
  unfold ListProvider.handleDrop. rewrite Hi.
  cbn [fst ListProvider.setCommands ListProvider.commands].
  unfold ListProvider.findIndexOrEnd. rewrite (findIndex_none _ _ Hall).
  cbn [Z.eqb Pos.eqb].
  assert (CommandData.group a <> None) as Hgrp.
  { intros Hnone. specialize (Hall a (list_elem_of_lookup_2 _ _ _ Hi)).
    unfold ListProvider.ungrouped in Hall. now rewrite Hnone in Hall. }
  rewrite bool_decide_eq_false_2 by exact Hgrp. cbn [andb].
  set (len := length (ListProvider.commands st)) in *.
  destruct (Z.eqb_spec (Z.of_nat len) (-1)); [lia|].
  destruct (Z.eqb_spec (Z.of_nat len) (Z.of_nat i)); [lia|]. cbn [negb andb].
  rewrite (moveItem_eq i (Z.of_nat len) _ (CommandData.setGroup None a))
    by now apply list_lookup_insert_eq.
  rewrite delete_insert_same.
  destruct (Z.ltb_spec (Z.of_nat i) (Z.of_nat len)); [|lia].
  assert (length (delete i (ListProvider.commands st)) = len - 1) as Hd
    by (apply length_delete; eauto).
  unfold Js.spliceStart. rewrite Hd.
  destruct (Z.ltb_spec (Z.of_nat len - 1) 0); [lia|].
  replace (Z.to_nat (Z.min _ _)) with (len - 1) by lia.
  rewrite <- Hd. now rewrite firstn_all, drop_all.
Qed.

(** ** C4: the group drop keeps groups and relative order *)

Section GroupDrop.
Import ListProvider.

Variable P : CommandData.t -> bool.

Lemma memberIndices_snoc (l : list CommandData.t) (x : CommandData.t) :
  memberIndices P (l ++ [x])
  = memberIndices P l ++ (if P x then [length l] else []).
Proof.
  unfold memberIndices. rewrite imap_app, List.filter_app, fmap_app.
  f_equal. cbn. rewrite Nat.add_0_r. destruct (P x); reflexivity.
Qed.

Lemma memberIndices_lt (l : list CommandData.t) (i : nat) :
  i ∈ memberIndices P l -> i < length l.
Proof.
  induction l as [|x l IH] using rev_ind; intros Hi.
  - inversion Hi.
  - rewrite memberIndices_snoc in Hi. rewrite length_app. cbn.
    apply elem_of_app in Hi as [Hi|Hi]; [apply IH in Hi; lia|].
    destruct (P x); [|inversion Hi].
    apply list_elem_of_singleton in Hi. lia.
Qed.

Lemma sortDescending_snoc_max (l : list nat) (n : nat) :
  (forall i, i ∈ l -> i < n) ->
  Js.sortDescending (l ++ [n]) = n :: Js.sortDescending l.
Proof.
  induction l as [|a l IH]; intros Hlt; [reflexivity|].
  cbn [app Js.sortDescending].
  rewrite IH by (intros i Hi; apply Hlt; now right).
  cbn [Js.insertDescending]. assert (a < n) by (apply Hlt; now left).
  destruct (Nat.ltb_spec n a); [lia | reflexivity].
Qed.

Lemma splice_remove_middle (l : list CommandData.t) (x : CommandData.t)
    (tail : list CommandData.t) :
  Js.splice (l ++ x :: tail) (Z.of_nat (length l)) 1 [] = ([x], l ++ tail).
Proof.
  unfold Js.splice, Js.spliceStart.
  destruct (Z.ltb_spec (Z.of_nat (length l)) 0); [lia|].
  rewrite length_app. cbn [length].
  replace (Z.to_nat (Z.min _ _)) with (length l) by lia.
  rewrite drop_app_length, take_app_length. cbn.
  replace (length l + 1) with (length (l ++ [x])) by (rewrite length_app; cbn; lia).
  replace (l ++ x :: tail) with ((l ++ [x]) ++ tail) by (rewrite <- app_assoc; reflexivity).
  rewrite drop_app_length. now rewrite take_0.
Qed.

(** Removing the members from the last to the first leaves the others
    in order and collects the members in order. *)
Lemma removeLoop_spec (l tail acc : list CommandData.t) :
  foldl removeStep (l ++ tail, acc) (Js.sortDescending (memberIndices P l))
  = (List.filter (fun c => negb (P c)) l ++ tail, List.filter P l ++ acc).
Proof.
  revert tail acc.
  induction l as [|x l IH] using rev_ind; intros tail acc; [reflexivity|].
  rewrite memberIndices_snoc, !List.filter_app. cbn [List.filter].
  destruct (P x) eqn:HP; cbn [negb].
  - rewrite sortDescending_snoc_max by apply memberIndices_lt.
    cbn [foldl]. unfold removeStep at 2.
    rewrite <- app_assoc. cbn [app].
    rewrite splice_remove_middle. cbn [take app].
    rewrite IH. now rewrite !app_nil_r, <- app_assoc.
  - rewrite app_nil_r, <- !app_assoc. cbn [app]. apply IH.
Qed.

Lemma filter_members_of_others (l : list CommandData.t) :
  List.filter P (List.filter (fun c => negb (P c)) l) = [].
Proof.
  induction l as [|x l IH]; [reflexivity|].
  cbn. destruct (P x) eqn:HP; cbn; [|rewrite HP]; exact IH.
Qed.

Lemma filter_others_of_members (l : list CommandData.t) :
  List.filter (fun c => negb (P c)) (List.filter P l) = [].
Proof.
  induction l as [|x l IH]; [reflexivity|].
  cbn. destruct (P x) eqn:HP; cbn; [rewrite HP|]; exact IH.
Qed.

Lemma filter_idem (Q : CommandData.t -> bool) (l : list CommandData.t) :
  List.filter Q (List.filter Q l) = List.filter Q l.
Proof.
  induction l as [|x l IH]; [reflexivity|].
  cbn. destruct (Q x) eqn:HQ; cbn; [rewrite HQ, IH|]; auto.
Qed.

Lemma filter_nil_sublist (Q : CommandData.t -> bool)
    (l : list CommandData.t) (n : nat) :
  List.filter Q l = [] ->
  List.filter Q (take n l) = [] /\ List.filter Q (drop n l) = [].
Proof.
  intros H. rewrite <- (take_drop n l), List.filter_app in H.
  now apply app_eq_nil in H.
Qed.

(** The store after the block has been put back at any position. *)
Lemma reinsert_filters (l : list CommandData.t) (start : Z) :
  let final :=
    (Js.splice (List.filter (fun c => negb (P c)) l) start 0
       (List.filter P l)).2 in
  List.filter P final = List.filter P l
  /\ List.filter (fun c => negb (P c)) final
     = List.filter (fun c => negb (P c)) l.
Proof.
  cbn. unfold Js.splice. cbn [snd].
  set (s := Js.spliceStart _ _). rewrite Nat.add_0_r.
  rewrite !List.filter_app.
  destruct (filter_nil_sublist P _ s (filter_members_of_others l)) as [-> ->].
  rewrite filter_idem, filter_others_of_members, app_nil_r. cbn [app].
  split; [reflexivity|].
  rewrite <- List.filter_app, take_drop. apply filter_idem.
Qed.

End GroupDrop.

(** C4: for every store and every group drop, the members of the moved
    group are afterwards the same actions in the same order, so that the
    group string of each is what it was, and the actions outside the group
    are the same actions in the same order. *)
Theorem group_drop_preserves_groups_and_order
    (sourceGroupPath : string) (target : option TreeItem)
    (st : ListProvider.state) :
  let st' := (ListProvider.handleGroupDrop sourceGroupPath target st).1 in
  let member := ListProvider.inGroup sourceGroupPath in
  List.filter member (ListProvider.commands st')
    = List.filter member (ListProvider.commands st)
  /\ List.filter (fun c => negb (member c)) (ListProvider.commands st')
     = List.filter (fun c => negb (member c)) (ListProvider.commands st).
Proof.
  cbn zeta. unfold ListProvider.handleGroupDrop.
  destruct (List.filter _ (ListProvider.commands st)) eqn:Hsrc;
    [cbn [fst]; rewrite Hsrc; split; reflexivity|].
  rewrite <- Hsrc. clear Hsrc.
  pose proof (removeLoop_spec (ListProvider.inGroup sourceGroupPath)
                (ListProvider.commands st) [] []) as Hloop.
  rewrite !app_nil_r in Hloop. rewrite Hloop.
  cbn [fst ListProvider.setCommands ListProvider.commands].
  apply reinsert_filters.
Qed.

(** ** C5: the count shown on a group node *)

Section GroupCount.
Import ListProvider.

Variable toLowerCase : string -> string.
Variable st : state.

Local Abbreviation matching := (matchesSearch toLowerCase st).
Local Abbreviation filtered := (filteredCommands toLowerCase st).

(** A path is witnessed when a matching action is a member of it. *)
Local Abbreviation witnessed path :=
  (exists c, c ∈ filtered /\ inGroup path c = true).

(** What the scan of one group keeps true: the direct children are
    command nodes, and the subgroups are witnessed. *)
Local Abbreviation scanInvariant acc :=
  ((forall g, GroupNode g ∉ acc.1.1)
   /\ (forall sub, sub ∈ acc.1.2 -> witnessed sub)).

Lemma matchesSearch_no_filter (c : CommandData.t) :
  Js.truthy (searchFilter st) = false -> matching c = true.
Proof. unfold matching, matchesSearch. now intros ->. Qed.

Lemma filteredCommands_filter :
  filtered = List.filter matching (commands st).
Proof.
  unfold filtered, filteredCommands.
  destruct (Js.truthy (searchFilter st)) eqn:Hf; [reflexivity|].
  induction (commands st) as [|c l IH]; [reflexivity|].
  cbn. now rewrite matchesSearch_no_filter, <- IH.
Qed.

Lemma elem_of_filtered (c : CommandData.t) :
  c ∈ filtered <-> c ∈ commands st /\ matching c = true.
Proof.
  rewrite filteredCommands_filter, !list_elem_of_In. apply List.filter_In.
Qed.

Lemma countOf_filter (Q : CommandData.t -> Prop) (q : CommandData.t -> bool)
    (l : list CommandData.t) :
  (forall c, q c = true <-> Q c) ->
  Spec.countOf Q l (length (List.filter q l)).
Proof.
  intros Hq. induction l as [|c l IH]; cbn; [constructor|].
  destruct (q c) eqn:Hc.
  - cbn. apply Spec.countOf_hit; [now apply Hq | exact IH].
  - apply Spec.countOf_miss; [|exact IH].
    intros HQ. apply Hq in HQ. congruence.
Qed.

Lemma filter_filter (p q : CommandData.t -> bool) (l : list CommandData.t) :
  List.filter q (List.filter p l) = List.filter (fun c => p c && q c) l.
Proof.
  induction l as [|c l IH]; [reflexivity|].
  cbn. destruct (p c); cbn; [destruct (q c)|]; now rewrite IH.
Qed.

(** The number the tree builder computes is the number of matching
    members. *)
Lemma getGroupCommandCount_spec (path : string) :
  Spec.countOf (fun c => matching c = true /\ Spec.memberOf path c)
    (commands st) (getGroupCommandCount path (Some filtered) st).
Proof.
  unfold getGroupCommandCount.
  change (default (commands st) (Some filtered)) with filtered.
  rewrite filteredCommands_filter, filter_filter.
  apply countOf_filter. intros c.
  now rewrite andb_true_iff, inGroup_iff.
Qed.

Lemma getGroupCommandCount_pos (path : string) :
  witnessed path -> 0 < getGroupCommandCount path (Some filtered) st.
Proof.
  intros (c & Hin & Hc). unfold getGroupCommandCount.
  change (default (commands st) (Some filtered)) with filtered.
  assert (c ∈ List.filter (inGroup path) filtered) as Hmem.
  { apply list_elem_of_In, List.filter_In. now rewrite <- list_elem_of_In. }
  destruct (List.filter (inGroup path) filtered); [inversion Hmem | cbn; lia].
Qed.

Lemma inGroup_firstSegment (c : CommandData.t) (g : string) :
  CommandData.group c = Some g -> inGroup (Js.firstSegment "/" g) c = true.
Proof.
  intros Hg. apply inGroup_iff. exists g. split; [exact Hg|].
  apply firstSegment_prefix.
Qed.

Lemma collectTop_witnessed (l : list CommandData.t)
    (acc : gset string * list string) :
  (forall c, c ∈ l -> c ∈ filtered) ->
  (forall top, top ∈ acc.2 -> witnessed top) ->
  forall top, top ∈ (foldl (collectTop) acc l).2 -> witnessed top.
Proof.
  revert acc. induction l as [|c l IH]; intros [seen tops] Hl Hacc;
    [exact Hacc|].
  cbn [foldl]. apply IH; [intros c' Hc'; apply Hl; now right|].
  unfold collectTop.
  destruct (CommandData.group c) as [g|] eqn:Hg; [|exact Hacc].
  destruct (Js.truthy g); [|exact Hacc].
  case_bool_decide; [exact Hacc|].
  cbn [snd]. intros top [Htop|Htop]%elem_of_app; [now apply Hacc|].
  apply list_elem_of_singleton in Htop as ->.
  exists c. split; [apply Hl; now left | now apply inGroup_firstSegment].
Qed.

Lemma topLevelGroups_witnessed (top : string) :
  top ∈ topLevelGroups toLowerCase st -> witnessed top.
Proof.
  apply collectTop_witnessed; [auto|]. intros ? H. inversion H.
Qed.

Lemma inGroup_subgroup (c : CommandData.t) (groupPath g : string) :
  CommandData.group c = Some g ->
  Js.startsWith g (groupPath +:+ "/") = true ->
  inGroup
    (groupPath +:+ "/" +:+
     Js.firstSegment "/" (Js.slice (String.length (groupPath +:+ "/")) g))
    c = true.
Proof.
  intros Hg Hpre. apply inGroup_iff. exists g. split; [exact Hg|].
  apply startsWith_slice in Hpre.
  set (remaining := Js.slice _ g) in *.
  destruct (firstSegment_prefix remaining) as [Hr| [rest Hr]].
  - left. rewrite Hpre at 1. rewrite Hr at 1. apply append_assoc.
  - right. exists rest. rewrite Hpre at 1. rewrite Hr at 1.
    now rewrite !append_assoc.
Qed.

Lemma scanStep_invariant (groupPath : string)
    (acc : list TreeItem * list string * gset string)
    (entry : nat * CommandData.t) :
  entry.2 ∈ commands st ->
  scanInvariant acc ->
  scanInvariant (scanStep toLowerCase groupPath st acc entry).
Proof.
  destruct acc as [[items subGroups] seen], entry as [index c].
  intros Hc [Hitems Hsubs]. unfold scanStep. cbn [snd] in Hc.
  destruct (CommandData.group c) as [g|] eqn:Hg; [|now split].
  destruct (Js.truthy g); cbn [negb]; [|now split].
  destruct (Js.truthy (searchFilter st) && negb (matchesSearch toLowerCase st c))
    eqn:Hskip; [now split|].
  destruct (String.eqb g groupPath).
  { split; [|exact Hsubs]. cbn [fst]. intros g' [H|H]%elem_of_app.
    - now apply (Hitems g').
    - apply list_elem_of_singleton in H. discriminate. }
  destruct (Js.startsWith g (groupPath +:+ "/")) eqn:Hpre; [|now split].
  case_bool_decide; [now split|].
  split; [exact Hitems|]. cbn [fst snd].
  intros sub [Hsub|Hsub]%elem_of_app; [now apply Hsubs|].
  apply list_elem_of_singleton in Hsub as ->.
  exists c. split; [|now apply inGroup_subgroup].
  apply elem_of_filtered. split; [exact Hc|].
  destruct (Js.truthy (searchFilter st)) eqn:Hf.
  - cbn in Hskip. now apply negb_false_iff in Hskip.
  - now apply matchesSearch_no_filter.
Qed.

Lemma groupScan_invariant (groupPath : string) :
  scanInvariant (groupScan toLowerCase groupPath st).
Proof.
  unfold groupScan.
  assert (forall entries acc,
             (forall e, e ∈ entries -> e.2 ∈ commands st) ->
             scanInvariant acc ->
             scanInvariant (foldl (scanStep toLowerCase groupPath st) acc entries))
    as Hfold.
  { induction entries as [|e entries IH]; intros acc Hin Hacc; [exact Hacc|].
    cbn [foldl]. apply IH; [intros e' He'; apply Hin; now right|].
    apply scanStep_invariant; [apply Hin; now left | exact Hacc]. }
  apply Hfold.
  - intros [i c] (j & y & Heq & Hj)%elem_of_lookup_imap. cbn.
    injection Heq as -> ->. now apply list_elem_of_lookup_2 in Hj.
  - split; intros ? H; inversion H.
Qed.

(** Every group node of one level comes from a witnessed path. *)
Lemma group_node_witnessed (element : option TreeItem) (item : GroupItem.t) :
  GroupNode item ∈ getChildren toLowerCase element st ->
  exists path, witnessed path /\ GroupNode item = groupNode toLowerCase st path.
Proof.
  destruct element as [[g|c]|]; cbn [getChildren].
  - unfold getGroupChildren.
    pose proof (groupScan_invariant (GroupItem.groupPath g)) as [Hitems Hsubs].
    destruct (groupScan _ _ _) as [[items subGroups] seen]. cbn [fst snd] in *.
    intros [H|H]%elem_of_app; [|now apply Hitems in H].
    apply list_elem_of_fmap in H as (path & Heq & Hpath). eauto.
  - intros H. inversion H.
  - unfold getRootItems. intros [H|H]%elem_of_app.
    + apply list_elem_of_fmap in H as (path & Heq & Hpath).
      eauto using topLevelGroups_witnessed.
    + apply list_elem_of_omap in H as ([index c] & _ & H).
      destruct (_ && _); discriminate.
Qed.

End GroupCount.

(** C5: for every store, every filter and every group node that one level
    of the tree shows, at the root or under a group, the count written on
    the node is the number of actions of the store that match the filter
    and whose group is the node's path or starts with that path followed
    by a slash; that number is never zero. *)
Theorem group_count_invariant (toLowerCase : string -> string)
    (st : ListProvider.state) (element : option TreeItem)
    (item : GroupItem.t) :
  GroupNode item ∈ ListProvider.getChildren toLowerCase element st ->
  exists n,
    Spec.countOf
      (fun c => ListProvider.matchesSearch toLowerCase st c = true
                /\ Spec.memberOf (GroupItem.groupPath item) c)
      (ListProvider.commands st) n
    /\ 0 < n
    /\ GroupItem.description item = Some (pretty n).
Proof.
  intros (path & Hw & Hitem)%group_node_witnessed.
  injection Hitem as ->. cbn [GroupItem.new GroupItem.groupPath GroupItem.description].
  eexists. split; [apply getGroupCommandCount_spec|].
  apply getGroupCommandCount_pos in Hw. split; [exact Hw|].
  now destruct (Nat.ltb_spec 0
    (ListProvider.getGroupCommandCount path
       (Some (ListProvider.filteredCommands toLowerCase st)) st)); [|lia].
Qed.

(** The root of the store [A (group G); B (group G/Sub); C (no group)]
    filtered on [b] shows the group [G] with the count 1. *)
Lemma group_count_invariant_witness :
  let st := ListProvider.mkState
              [Scenario.GA; Scenario.GB; Scenario.GC] ∅ "b" None in
  let item := GroupItem.new "G" true (Some 1) in
  GroupNode item ∈ ListProvider.getChildren Js.toLowerCaseAscii None st
  /\ exists n,
      Spec.countOf
        (fun c => ListProvider.matchesSearch Js.toLowerCaseAscii st c = true
                  /\ Spec.memberOf (GroupItem.groupPath item) c)
        (ListProvider.commands st) n
      /\ 0 < n
      /\ GroupItem.description item = Some (pretty n).
Proof.
  cbn zeta.
  assert (GroupNode (GroupItem.new "G" true (Some 1))
          ∈ ListProvider.getChildren Js.toLowerCaseAscii None
              (ListProvider.mkState
                 [Scenario.GA; Scenario.GB; Scenario.GC] ∅ "b" None)) as Hin.
  { vm_compute. left. }
  split; [exact Hin|].
  exact (group_count_invariant Js.toLowerCaseAscii _ None _ Hin).
Defined.

(** ** C6: the command string of the internal terminal *)

(** C6, as stated, fails when the terminal is to close afterwards: what
    is sent is not the joined form but a wrapping of it. *)
Lemma internal_autoclose_sends_wrapped :
  Extension.runShell "linux" Scenario.recordLaunch Scenario.autoClosing
  = [Extension.CreateTerminal "build" None; Extension.TerminalShow;
     Extension.SendText "trap 'exit' INT; a && b; exit"]
  /\ Extension.SendText "trap 'exit' INT; a && b; exit"
     <> Extension.SendText (String.concat " && " ["a"; "b"]).
Proof. split; [reflexivity | discriminate]. Qed.

(** C6, amended: for every non-empty command list the dispatcher joins
    it with [ && ] for the POSIX form and with [; ] for the PowerShell
    form; in the internal terminal, when the terminal is not to close
    afterwards, the text sent is the PowerShell form on [win32] and the
    POSIX form on every other platform; when it is to close, the text
    sent is that same form wrapped, in [try { ... } finally { exit }] on
    [win32] and in [trap 'exit' INT; ...; exit] elsewhere. *)
Theorem internal_terminal_command_string (platform : string)
    (launchExternal : option string -> bool -> bool -> string -> string
                      -> list string)
    (c : CommandData.t) (cmd : string) (rest : list string) :
  CommandData.commands c = Some (cmd :: rest) ->
  truthyFlag (CommandData.externalTerminal c) = false ->
  let posix := String.concat " && " (cmd :: rest) in
  let ps := String.concat "; " (cmd :: rest) in
  Extension.cmdJoined (cmd :: rest) = posix
  /\ Extension.psJoined (cmd :: rest) = ps
  /\ exists text,
      Extension.runShell platform launchExternal c
      = [Extension.CreateTerminal (CommandData.name c) (CommandData.env c);
         Extension.TerminalShow; Extension.SendText text]
      /\ (truthyFlag (CommandData.autoClose c) = false ->
          (platform = "win32" -> text = ps)
          /\ (platform <> "win32" -> text = posix))
      /\ (truthyFlag (CommandData.autoClose c) = true ->
          (platform = "win32" ->
           text = "try { " +:+ ps +:+ " } finally { exit }")
          /\ (platform <> "win32" ->
              text = "trap 'exit' INT; " +:+ posix +:+ "; exit")).
Proof.
  intros Hcmds Hint posix ps. split; [reflexivity|]. split; [reflexivity|].
  unfold Extension.runShell. rewrite Hcmds, Hint.
  unfold Extension.internalTerminal. eexists. split; [reflexivity|].
  destruct (String.eqb_spec platform "win32") as [Hw|Hw];
    destruct (truthyFlag (CommandData.autoClose c));
    (split; intros Hac; [try discriminate Hac|try discriminate Hac]);
    (split; intros Hp; [try contradiction|try contradiction]); reflexivity.
Qed.

Lemma internal_terminal_command_string_witness :
  CommandData.commands Scenario.interactive = Some ["a"; "b"]
  /\ truthyFlag (CommandData.externalTerminal Scenario.interactive) = false
  /\ Extension.runShell "win32" Scenario.recordLaunch Scenario.interactive
     = [Extension.CreateTerminal "build" None; Extension.TerminalShow;
        Extension.SendText "a; b"].
Proof.
  split; [reflexivity|]. split; [reflexivity|].
  destruct (internal_terminal_command_string "win32" Scenario.recordLaunch
              Scenario.interactive "a" ["b"] eq_refl eq_refl)
    as (_ & _ & text & Hrun & Hopen & _).
  destruct (Hopen eq_refl) as [Hwin _].
  rewrite Hrun, (Hwin eq_refl). reflexivity.
Defined.

(** ** C7: the deprecated fields *)

Lemma launched_of_array (c : CommandData.t) (ps : list ProgramItem.t) :
  CommandData.programs c = Some ps ->
  Extension.launched c
  = (fun p => (ProgramItem.path p, default EmptyString (ProgramItem.args p)))
      <$> ps.
Proof.
  unfold Extension.launched, Extension.runPrograms. intros ->.
  rewrite <- list_fmap_compose. apply list_fmap_ext.
  intros _ [path [[|a args]|]] _; reflexivity.
Qed.

(** C7, as stated, fails for an empty deprecated [url]: the effective
    list is empty, not the one-element list that wraps it. *)
Lemma empty_legacy_url_is_dropped :
  Extension.runUrls (Scenario.legacyUrl EmptyString) = []
  /\ Extension.runUrls (Scenario.legacyUrl EmptyString)
     <> [UrlItem.mk EmptyString None].
Proof. split; [reflexivity | discriminate]. Qed.

(** C7, amended: for every action with a [urls] array the effective URL
    list is that array, and with a [programs] array the programs launched
    are those of the array, each with its own argument string; for every
    action with only a non-empty deprecated [url] the effective URL list
    is the one-element list that wraps it; for every action with only a
    non-empty deprecated [program] the one program launched is that path,
    with the deprecated [args] tokens joined by single spaces. *)
Theorem legacy_normalization (c : CommandData.t) :
  (forall us, CommandData.urls c = Some us -> Extension.runUrls c = us)
  /\ (forall ps, CommandData.programs c = Some ps ->
        Extension.launched c
        = (fun p => (ProgramItem.path p, default EmptyString (ProgramItem.args p)))
            <$> ps)
  /\ (forall u, CommandData.urls c = None -> CommandData.url c = Some u ->
        u <> EmptyString -> Extension.runUrls c = [UrlItem.mk u None])
  /\ (forall p, CommandData.programs c = None ->
        CommandData.program c = Some p -> p <> EmptyString ->
        Extension.launched c
        = [(p, String.concat " " (default [] (CommandData.args c)))]).
Proof.
  unfold Extension.launched, Extension.runUrls, Extension.runPrograms, effectiveUrls.
  repeat split.
  - now intros us ->.
  - apply launched_of_array.
  - intros u -> ->. now destruct u.
  - intros p -> ->. destruct p; [congruence|]. intros _. cbn.
    now destruct (CommandData.args c).
Qed.

Lemma legacy_normalization_witness :
  Extension.runUrls Scenario.newShape
    = [UrlItem.mk "http://localhost" (Some true)]
  /\ Extension.launched Scenario.newShape = [("code", "-n .")]
  /\ Extension.runUrls (Scenario.legacyUrl "http://old")
     = [UrlItem.mk "http://old" None]
  /\ Extension.launched Scenario.legacyProgram = [("code", "-n .")].
Proof.
  destruct (legacy_normalization Scenario.newShape) as (Hu & Hp & _ & _).
  destruct (legacy_normalization (Scenario.legacyUrl "http://old"))
    as (_ & _ & Hlu & _).
  destruct (legacy_normalization Scenario.legacyProgram) as (_ & _ & _ & Hlp).
  split; [exact (Hu _ eq_refl)|]. split; [exact (Hp _ eq_refl)|].
  split; [apply Hlu; [reflexivity | reflexivity | discriminate]|].
  apply (Hlp "code"); [reflexivity | reflexivity | discriminate].
Defined.

(** ** C8: the import of a document without a commands array *)

(** C8: when the [commands] field of the imported document is missing or
    is not an array, the import leaves the provider as it was, whatever
    the user would have picked, and nothing is written or refreshed: the
    only effect, once a file has been chosen, is the error message. *)
Theorem import_rejects_missing_array (uris : option string)
    (imported : ListProvider.ImportedCommands)
    (action : option ListProvider.ImportAction) (st : ListProvider.state) :
  (imported = ListProvider.CommandsMissing
   \/ exists t, imported = ListProvider.CommandsNotArray t) ->
  ListProvider.importConfig uris (ListProvider.Parsed imported) action st
  = (st, match uris with
         | None => []
         | Some _ =>
             [ShowErrorMessage "Invalid config file: missing commands array"]
         end).
Proof.
  intros [->| [t ->]]; destruct uris; try reflexivity.
  now destruct t.
Qed.

Lemma import_rejects_missing_array_witness :
  let st := Scenario.store [Scenario.A; Scenario.B] in
  (ListProvider.CommandsMissing = ListProvider.CommandsMissing
   \/ exists t, ListProvider.CommandsMissing = ListProvider.CommandsNotArray t)
  /\ ListProvider.importConfig (Some "other.json")
       (ListProvider.Parsed ListProvider.CommandsMissing)
       (Some ListProvider.Replace) st
     = (st, [ShowErrorMessage "Invalid config file: missing commands array"]).
Proof.
  cbn zeta. split; [now left|].
  exact (import_rejects_missing_array (Some "other.json")
           ListProvider.CommandsMissing (Some ListProvider.Replace)
           (Scenario.store [Scenario.A; Scenario.B]) (or_introl eq_refl)).
Defined.

(** ** C9: an array field hides its deprecated counterpart *)

(** C9: when an action has a [urls] array, the dispatcher, the search
    filter and the tree item (tooltip and icon) are the same whatever the
    deprecated [url] holds, and the URL list they use is the array; when
    it has a [programs] array they are the same whatever the deprecated
    [program] and [args] hold, and the program list they use is the
    array. *)
Theorem array_field_hides_legacy_field (toLowerCase : string -> string)
    (platform : string)
    (launchExternal : option string -> bool -> bool -> string -> string
                      -> list string)
    (st : ListProvider.state) (index : nat) (c : CommandData.t) :
  (forall us, CommandData.urls c = Some us ->
     (effectiveUrls c = us /\ Extension.runUrls c = us)
     /\ forall legacy,
         let c' := CommandData.withLegacyUrl legacy c in
         Extension.run platform launchExternal (Some c')
         = Extension.run platform launchExternal (Some c)
         /\ ListProvider.matchesSearch toLowerCase st c'
            = ListProvider.matchesSearch toLowerCase st c
         /\ CommandItem.tooltip (CommandItem.new c' index)
            = CommandItem.tooltip (CommandItem.new c index)
         /\ CommandItem.iconPath (CommandItem.new c' index)
            = CommandItem.iconPath (CommandItem.new c index))
  /\ (forall ps, CommandData.programs c = Some ps ->
        (tooltipPrograms c = ps /\ searchPrograms c = ps
         /\ Extension.launched c
            = (fun p => (ProgramItem.path p,
                         default EmptyString (ProgramItem.args p))) <$> ps)
        /\ forall legacyProgram legacyArgs,
            let c' := CommandData.withLegacyProgram legacyProgram legacyArgs c in
            Extension.run platform launchExternal (Some c')
            = Extension.run platform launchExternal (Some c)
            /\ ListProvider.matchesSearch toLowerCase st c'
               = ListProvider.matchesSearch toLowerCase st c
            /\ CommandItem.tooltip (CommandItem.new c' index)
               = CommandItem.tooltip (CommandItem.new c index)
            /\ CommandItem.iconPath (CommandItem.new c' index)
               = CommandItem.iconPath (CommandItem.new c index)).
Proof.
  split.
  - intros us Hus. split.
    + unfold Extension.runUrls, effectiveUrls. now rewrite Hus.
    + intros legacy c'.
      assert (effectiveUrls c' = effectiveUrls c) as Hu
        by (unfold effectiveUrls; cbn; now rewrite Hus).
      unfold Extension.run, Extension.runUrls, ListProvider.matchesSearch,
        CommandItem.new, CommandItem.tooltipParts.
      cbn [CommandItem.tooltip CommandItem.iconPath]. rewrite Hu.
      repeat split.
  - intros ps Hps. split.
    + split; [|split].
      * unfold tooltipPrograms. now rewrite Hps.
      * unfold searchPrograms. now rewrite Hps.
      * now apply launched_of_array.
    + intros legacyProgram legacyArgs c'.
      assert (Extension.runPrograms c' = Extension.runPrograms c) as Hr
        by (unfold Extension.runPrograms; cbn; now rewrite Hps).
      assert (searchPrograms c' = searchPrograms c) as Hs
        by (unfold searchPrograms; cbn; now rewrite Hps).
      assert (tooltipPrograms c' = tooltipPrograms c) as Ht
        by (unfold tooltipPrograms; cbn; now rewrite Hps).
      unfold Extension.run, ListProvider.matchesSearch,
        CommandItem.new, CommandItem.tooltipParts.
      cbn [CommandItem.tooltip CommandItem.iconPath]. rewrite Hr, Hs, Ht.
      repeat split.
Qed.

Lemma array_field_hides_legacy_field_witness :
  CommandData.urls Scenario.newShape
    = Some [UrlItem.mk "http://localhost" (Some true)]
  /\ Extension.run "linux" Scenario.recordLaunch
       (Some (CommandData.withLegacyUrl None Scenario.newShape))
     = Extension.run "linux" Scenario.recordLaunch (Some Scenario.newShape)
  /\ ListProvider.matchesSearch Js.toLowerCaseAscii
       (ListProvider.mkState [] ∅ "old" None)
       (CommandData.withLegacyUrl None Scenario.newShape)
     = false.
Proof.
  split; [reflexivity|].
  destruct (array_field_hides_legacy_field Js.toLowerCaseAscii "linux"
              Scenario.recordLaunch (ListProvider.mkState [] ∅ "old" None)
              0 Scenario.newShape) as [Hurls _].
  destruct (Hurls _ eq_refl) as [_ Hany].
  destruct (Hany None) as (Hrun & Hsearch & _).
  split; [exact Hrun|]. rewrite Hsearch. reflexivity.
Defined.

(** ** C10: a drag of several actions *)

(** C10, as stated, fails: dragging [A] and [C] (indices 0 and 2) of the
    store [A; B; C; D] onto the command item [D] moves [A] alone, but the
    other dragged action [C] does not keep its position: it stood at
    index 2 and stands at index 1 afterwards. *)
Lemma multi_drag_shifts_other_dragged :
  ListProvider.commands
    (ListProvider.handleDrop
       (Some (CommandNode (CommandItem.new Scenario.MD 3)))
       (Some (DragCommands [0; 2]))
       (Scenario.store
          [Scenario.MA; Scenario.MB; Scenario.MC; Scenario.MD])).1
  = [Scenario.MB; Scenario.MC; Scenario.MAinX; Scenario.MD]
  /\ [Scenario.MA; Scenario.MB; Scenario.MC; Scenario.MD] !! 2
     = Some Scenario.MC
  /\ [Scenario.MB; Scenario.MC; Scenario.MAinX; Scenario.MD] !! 1
     = Some Scenario.MC
  /\ [Scenario.MB; Scenario.MC; Scenario.MAinX; Scenario.MD] !! 2
     <> Some Scenario.MC.
Proof.
  split; [reflexivity|]. split; [reflexivity|]. split; [reflexivity|].
  discriminate.
Qed.

(** C10, amended: when the payload lists several indices, the drop does
    what it does for the first index alone: if that index is not in the
    store nothing happens; otherwise the action found there is afterwards
    somewhere in the store, with its group possibly reassigned, and the
    store without it is the store before without it, so that every other
    action, dragged or not, keeps its place among the others and its
    group; an action below both the source index and the landing index,
    or above both, keeps its index as well. *)
Theorem multi_drag_moves_first_only (target : option TreeItem) (i : nat)
    (rest : list nat) (st : ListProvider.state) :
  let r := ListProvider.handleDrop target (Some (DragCommands (i :: rest))) st in
  r = ListProvider.handleDrop target (Some (DragCommands [i])) st
  /\ match ListProvider.commands st !! i with
     | None => r = (st, [])
     | Some a =>
         exists j g,
           ListProvider.commands r.1 !! j = Some (CommandData.setGroup g a)
           /\ delete j (ListProvider.commands r.1)
              = delete i (ListProvider.commands st)
           /\ forall k, (k < i /\ k < j) \/ (i < k /\ j < k) ->
                ListProvider.commands r.1 !! k
                = ListProvider.commands st !! k
     end.
Proof.
  cbn zeta. split; [reflexivity|].
  unfold ListProvider.handleDrop.
  destruct (ListProvider.commands st !! i) as [a|] eqn:Hi; [|reflexivity].
  pose proof (lookup_lt_Some _ _ _ Hi) as Hlt.
  match goal with
  | |- context [let '(tg, ti) := ?p in _] => destruct p as [targetGroup targetIndex]
  end.
  cbn [fst ListProvider.setCommands ListProvider.commands].
  destruct (bool_decide _ && _).
  - destruct (moveItem_spec i targetIndex _ a Hi) as (j & Hj & Hdel).
    exists j, (CommandData.group a). rewrite setGroup_same.
    eauto using lookup_outside_span.
  - assert (<[i:=CommandData.setGroup targetGroup a]> (ListProvider.commands st) !! i
            = Some (CommandData.setGroup targetGroup a)) as Hi'
      by now apply list_lookup_insert_eq.
    destruct (negb _ && negb _).
    + destruct (moveItem_spec i targetIndex _ _ Hi') as (j & Hj & Hdel).
      rewrite delete_insert_same in Hdel.
      exists j, targetGroup. eauto using lookup_outside_span.
    + exists i, targetGroup.
      eauto using lookup_outside_span, delete_insert_same.
Qed.

(** * Further properties of the sources *)

(** ** The shape of one level of the tree *)

Lemma elem_of_firstAppearances (x : string) (l : list string) :
  x ∈ TreeSpec.firstAppearances l <-> x ∈ l.
Proof.
  induction l as [|y l IH]; [reflexivity|].
  cbn [TreeSpec.firstAppearances].
  rewrite !elem_of_cons, list_elem_of_filter, IH.
  destruct (decide (x = y)); naive_solver.
Qed.

Lemma NoDup_firstAppearances (l : list string) :
  NoDup (TreeSpec.firstAppearances l).
Proof.
  induction l as [|y l IH]; [constructor|].
  cbn [TreeSpec.firstAppearances]. constructor.
  - rewrite list_elem_of_filter. naive_solver.
  - now apply NoDup_filter.
Qed.

(** Dropping what has been seen from the first appearances. *)
Lemma filter_unseen_cons (seen : gset string) (x : string) (l : list string) :
  filter (fun y => y ∉ seen) (TreeSpec.firstAppearances (x :: l))
  = if decide (x ∈ seen)
    then filter (fun y => y ∉ seen) (TreeSpec.firstAppearances l)
    else x :: filter (fun y => y ∉ {[x]} ∪ seen) (TreeSpec.firstAppearances l).
Proof.
  cbn [TreeSpec.firstAppearances]. destruct (decide (x ∈ seen)) as [Hx|Hx].
  - rewrite filter_cons_False by auto. rewrite list_filter_filter.
    apply list_filter_iff. intros y. split; [tauto|].
    intros Hy. split; [exact Hy | congruence].
  - rewrite filter_cons_True by exact Hx. f_equal.
    rewrite list_filter_filter. apply list_filter_iff. intros y. set_solver.
Qed.

Lemma filter_unseen_empty (seen : gset string) (l : list string) :
  seen = ∅ -> filter (fun y => y ∉ seen) l = l.
Proof.
  intros ->. induction l as [|x l IH]; [reflexivity|].
  rewrite filter_cons_True by set_solver. now rewrite IH.
Qed.

Section TreeShape.
Import ListProvider.

Variable toLowerCase : string -> string.
Variable st : state.

Local Abbreviation matching := (matchesSearch toLowerCase st).

Lemma collectTop_step (seen : gset string) (tops : list string)
    (c : CommandData.t) :
  collectTop (seen, tops) c
  = match TreeSpec.topOf c with
    | None => (seen, tops)
    | Some x =>
        if decide (x ∈ seen) then (seen, tops)
        else ({[x]} ∪ seen, tops ++ [x])
    end.
Proof.
  unfold collectTop, TreeSpec.topOf.
  destruct (CommandData.group c) as [g|]; [|reflexivity].
  destruct (Js.truthy g); [|reflexivity].
  case_bool_decide; [now rewrite decide_True | now rewrite decide_False].
Qed.

Lemma collectTop_fold (l : list CommandData.t) (seen : gset string)
    (tops : list string) :
  foldl collectTop (seen, tops) l
  = (seen ∪ list_to_set (omap TreeSpec.topOf l),
     tops ++ filter (fun y => y ∉ seen)
               (TreeSpec.firstAppearances (omap TreeSpec.topOf l))).
Proof.
  revert seen tops. induction l as [|c l IH]; intros seen tops.
  - cbn. rewrite app_nil_r. f_equal. set_solver.
  - cbn [foldl omap list_omap]. rewrite collectTop_step.
    destruct (TreeSpec.topOf c) as [x|]; [|apply IH].
    rewrite filter_unseen_cons, list_to_set_cons.
    destruct (decide (x ∈ seen)) as [Hseen|Hseen]; rewrite IH.
    + f_equal. set_solver.
    + rewrite <- app_assoc. f_equal. set_solver.
Qed.

Lemma topLevelGroups_eq :
  topLevelGroups toLowerCase st
  = TreeSpec.firstAppearances
      (omap TreeSpec.topOf (filteredCommands toLowerCase st)).
Proof.
  unfold topLevelGroups. rewrite collectTop_fold. cbn [snd app].
  now apply filter_unseen_empty.
Qed.

(** What the scan makes of one entry of the store. *)
Local Abbreviation directOf P :=
  (fun entry : nat * CommandData.t =>
     if TreeSpec.directIn P entry.2 && matching entry.2
     then Some (CommandNode (CommandItem.new entry.2 entry.1)) else None).

Local Abbreviation subOfEntry P :=
  (fun entry : nat * CommandData.t =>
     if matching entry.2 then TreeSpec.subOf P entry.2 else None).

Lemma scanStep_step (P : string) (items : list TreeItem)
    (subs : list string) (seen : gset string) (entry : nat * CommandData.t) :
  scanStep toLowerCase P st (items, subs, seen) entry
  = match directOf P entry, subOfEntry P entry with
    | Some node, _ => (items ++ [node], subs, seen)
    | None, None => (items, subs, seen)
    | None, Some x =>
        if decide (x ∈ seen) then (items, subs, seen)
        else (items, subs ++ [x], {[x]} ∪ seen)
    end.
Proof.
  destruct entry as [i c]. cbn [fst snd].
  unfold scanStep, TreeSpec.directIn, TreeSpec.subOf.
  destruct (CommandData.group c) as [g|];
    [|destruct (matching c); reflexivity].
  destruct (Js.truthy g); cbn [negb andb];
    [|destruct (matching c); reflexivity].
  destruct (matching c) eqn:Hm.
  2:{ destruct (Js.truthy (searchFilter st)) eqn:Hf.
      - cbn [andb negb]. now rewrite andb_false_r.
      - pose proof (matchesSearch_no_filter toLowerCase st c Hf). congruence. }
  rewrite andb_false_r, andb_true_r.
  destruct (String.eqb g P); cbn [negb andb]; [reflexivity|].
  destruct (Js.startsWith g (P +:+ "/")); [|reflexivity].
  case_bool_decide; [now rewrite decide_True | now rewrite decide_False].
Qed.

Lemma scanStep_fold (P : string) (entries : list (nat * CommandData.t))
    (items : list TreeItem) (subs : list string) (seen : gset string) :
  foldl (scanStep toLowerCase P st) (items, subs, seen) entries
  = (items ++ omap (directOf P) entries,
     subs ++ filter (fun y => y ∉ seen)
               (TreeSpec.firstAppearances (omap (subOfEntry P) entries)),
     seen ∪ list_to_set (omap (subOfEntry P) entries)).
Proof.
  revert items subs seen.
  induction entries as [|entry entries IH]; intros items subs seen.
  - cbn. rewrite !app_nil_r. f_equal; try reflexivity; set_solver.
  - cbn [foldl omap list_omap]. rewrite scanStep_step.
    destruct (directOf P entry) as [node|] eqn:Hd.
    + assert (subOfEntry P entry = None) as ->.
      { destruct entry as [i c]. cbn [fst snd] in *.
        unfold TreeSpec.directIn, TreeSpec.subOf in *.
        destruct (matching c); [|reflexivity].
        destruct (CommandData.group c) as [g|]; [|reflexivity].
        destruct (Js.truthy g); [|reflexivity].
        destruct (String.eqb g P); [reflexivity|discriminate]. }
      rewrite IH. now rewrite <- app_assoc.
    + destruct (subOfEntry P entry) as [x|]; [|apply IH].
      rewrite filter_unseen_cons, list_to_set_cons.
      destruct (decide (x ∈ seen)) as [Hseen|Hseen]; rewrite IH.
      * f_equal; try reflexivity; set_solver.
      * rewrite <- app_assoc. f_equal; try reflexivity; set_solver.
Qed.

Lemma omap_subOfEntry (P : string) (l : list CommandData.t) (f : nat -> nat) :
  omap (subOfEntry P) (imap (fun i c => (f i, c)) l)
  = omap (TreeSpec.subOf P) (List.filter matching l).
Proof.
  revert f. induction l as [|c l IH]; intros f; [reflexivity|].
  cbn [imap omap list_omap List.filter snd]. unfold compose.
  rewrite (IH (fun i => f (S i))).
  destruct (matching c); [cbn [omap list_omap]|]; reflexivity.
Qed.

Lemma getGroupChildren_eq (P : string) :
  getGroupChildren toLowerCase P st
  = (groupNode toLowerCase st <$>
       TreeSpec.firstAppearances
         (omap (TreeSpec.subOf P) (List.filter matching (commands st))))
    ++ omap (directOf P) (imap (fun i c => (i, c)) (commands st)).
Proof.
  unfold getGroupChildren, groupScan. rewrite scanStep_fold.
  cbn [app]. rewrite filter_unseen_empty by reflexivity.
  now rewrite (omap_subOfEntry P (commands st) (fun i => i)).
Qed.

Lemma getRootItems_eq :
  getRootItems toLowerCase st
  = (groupNode toLowerCase st <$>
       TreeSpec.firstAppearances
         (omap TreeSpec.topOf (List.filter matching (commands st))))
    ++ omap (fun '(index, cmd) =>
               if ungrouped cmd && matching cmd
               then Some (CommandNode (CommandItem.new cmd index)) else None)
            (imap (fun index cmd => (index, cmd)) (commands st)).
Proof.
  unfold getRootItems. now rewrite topLevelGroups_eq, filteredCommands_filter.
Qed.

Lemma groupPathsOf_groupNodes (l : list string) :
  TreeSpec.groupPathsOf (groupNode toLowerCase st <$> l) = l.
Proof.
  induction l as [|x l IH]; [reflexivity|].
  cbn. f_equal. exact IH.
Qed.

End TreeShape.

Lemma groupPathsOf_app (l1 l2 : list TreeItem) :
  TreeSpec.groupPathsOf (l1 ++ l2)
  = TreeSpec.groupPathsOf l1 ++ TreeSpec.groupPathsOf l2.
Proof. apply omap_app. Qed.

Lemma groupPathsOf_commands {A} (f : A -> option TreeItem) (l : list A) :
  (forall x g, f x <> Some (GroupNode g)) ->
  TreeSpec.groupPathsOf (omap f l) = [].
Proof.
  intros Hf. induction l as [|x l IH]; [reflexivity|].
  cbn [omap list_omap]. destruct (f x) as [[g|c]|] eqn:Hx; [|exact IH..].
  now apply Hf in Hx.
Qed.

Lemma direct_not_group (toLowerCase : string -> string)
    (st : ListProvider.state) (P : string) (entry : nat * CommandData.t)
    (g : GroupItem.t) :
  (if TreeSpec.directIn P entry.2 && ListProvider.matchesSearch toLowerCase st entry.2
   then Some (CommandNode (CommandItem.new entry.2 entry.1)) else None)
  <> Some (GroupNode g).
Proof. destruct (_ && _); discriminate. Qed.

Lemma root_not_group (toLowerCase : string -> string)
    (st : ListProvider.state) (entry : nat * CommandData.t)
    (g : GroupItem.t) :
  (let '(index, cmd) := entry in
   if ListProvider.ungrouped cmd && ListProvider.matchesSearch toLowerCase st cmd
   then Some (CommandNode (CommandItem.new cmd index)) else None)
  <> Some (GroupNode g).
Proof. destruct entry. destruct (_ && _); discriminate. Qed.

(** X1: on every level of the tree the group nodes stand for the paths
    that level is built from, each path once and in the order in which
    the store first shows it: at the root the top segments of the matching
    grouped actions, under a group the subgroups holding its matching
    descendants. *)
Theorem tree_groups_in_order_of_first_appearance
    (toLowerCase : string -> string) (st : ListProvider.state)
    (element : option TreeItem) :
  TreeSpec.groupPathsOf (ListProvider.getChildren toLowerCase element st)
  = TreeSpec.firstAppearances
      (TreeSpec.levelSegments (ListProvider.matchesSearch toLowerCase st)
         element (ListProvider.commands st))
  /\ NoDup (TreeSpec.groupPathsOf
              (ListProvider.getChildren toLowerCase element st)).
Proof.
  assert (TreeSpec.groupPathsOf (ListProvider.getChildren toLowerCase element st)
          = TreeSpec.firstAppearances
              (TreeSpec.levelSegments (ListProvider.matchesSearch toLowerCase st)
                 element (ListProvider.commands st))) as Heq.
  { destruct element as [[g|c]|]; cbn [ListProvider.getChildren
      TreeSpec.levelSegments]; [|reflexivity|].
    - rewrite getGroupChildren_eq, groupPathsOf_app, groupPathsOf_groupNodes.
      rewrite groupPathsOf_commands by (intros; apply direct_not_group).
      apply app_nil_r.
    - rewrite getRootItems_eq, groupPathsOf_app, groupPathsOf_groupNodes.
      rewrite groupPathsOf_commands by (intros; apply root_not_group).
      apply app_nil_r. }
  split; [exact Heq|]. rewrite Heq. apply NoDup_firstAppearances.
Qed.

(** X2: a command node is shown on a level exactly for the entries of the
    store that match the filter and belong there, at the root the actions
    without a group and under a group the actions whose group is that
    path; the node carries the entry and its index in the store. *)
Theorem tree_command_nodes (toLowerCase : string -> string)
    (st : ListProvider.state) (element : option TreeItem)
    (item : CommandItem.t) :
  CommandNode item ∈ ListProvider.getChildren toLowerCase element st
  <-> exists i c,
        item = CommandItem.new c i
        /\ ListProvider.commands st !! i = Some c
        /\ ListProvider.matchesSearch toLowerCase st c = true
        /\ TreeSpec.shownAt element c = true.
Proof.
  destruct element as [[g|c0]|];
    cbn [ListProvider.getChildren TreeSpec.shownAt].
  - rewrite getGroupChildren_eq, elem_of_app, list_elem_of_fmap,
      list_elem_of_omap.
    split.
    + intros [(path & Hp & _)| ([i c] & Hin & Hsome)]; [discriminate|].
      apply elem_of_lookup_imap in Hin as (j & y & [= -> ->] & Hj).
      cbn [fst snd] in Hsome.
      destruct (TreeSpec.directIn _ _) eqn:Hd; [|discriminate].
      destruct (ListProvider.matchesSearch _ _ _) eqn:Hm; [|discriminate].
      injection Hsome as <-. eauto 10.
    + intros (i & c & -> & Hi & Hm & Hd). right. exists (i, c). split.
      * apply elem_of_lookup_imap. eauto.
      * cbn [fst snd]. now rewrite Hd, Hm.
  - split; [intros H; inversion H | intros (? & ? & _ & _ & _ & ?); discriminate].
  - rewrite getRootItems_eq, elem_of_app, list_elem_of_fmap,
      list_elem_of_omap.
    split.
    + intros [(path & Hp & _)| ([i c] & Hin & Hsome)]; [discriminate|].
      apply elem_of_lookup_imap in Hin as (j & y & [= -> ->] & Hj).
      destruct (ListProvider.ungrouped _) eqn:Hd; [|discriminate].
      destruct (ListProvider.matchesSearch _ _ _) eqn:Hm; [|discriminate].
      injection Hsome as <-. eauto 10.
    + intros (i & c & -> & Hi & Hm & Hd). right. exists (i, c). split.
      * apply elem_of_lookup_imap. eauto.
      * now rewrite Hd, Hm.
Qed.

Lemma command_part_sorted (b : nat -> CommandData.t -> bool)
    (l : list CommandData.t) (k : nat) :
  exists cs,
    omap (fun entry : nat * CommandData.t =>
            if b entry.1 entry.2
            then Some (CommandNode (CommandItem.new entry.2 entry.1))
            else None)
         (imap (fun i c => (k + i, c)) l)
    = CommandNode <$> cs
    /\ Forall (fun ci => k <= CommandItem.index ci) cs
    /\ StronglySorted
         (fun x y => CommandItem.index x < CommandItem.index y) cs.
Proof.
  revert k. induction l as [|c l IH]; intros k.
  - exists []. repeat split; constructor.
  - destruct (IH (S k)) as (cs & Heq & Hge & Hsorted).
    cbn [imap omap list_omap fst snd].
    rewrite (imap_ext _ (fun i c => (S k + i, c)))
      by (intros; cbn; f_equal; lia).
    rewrite Heq, Nat.add_0_r.
    assert (Forall (fun ci => k <= CommandItem.index ci) cs) as Hge'
      by (eapply Forall_impl; [exact Hge | cbn; intros; lia]).
    destruct (b k c).
    + exists (CommandItem.new c k :: cs). repeat split.
      * constructor; [cbn; lia | exact Hge'].
      * constructor; [exact Hsorted|].
        eapply Forall_impl; [exact Hge | cbn; intros; lia].
    + exists cs. auto.
Qed.

Lemma groupNodes_are_groups (toLowerCase : string -> string)
    (st : ListProvider.state) (l : list string) :
  exists gs, ListProvider.groupNode toLowerCase st <$> l = GroupNode <$> gs.
Proof.
  induction l as [|x l [gs IH]]; [now exists []|].
  cbn [fmap list_fmap]. unfold ListProvider.groupNode at 1.
  eexists (_ :: gs). cbn [fmap list_fmap]. f_equal. exact IH.
Qed.

(** X3: every level of the tree lists its group nodes first and its
    command nodes after them, and the command nodes follow the order of
    the store: their indices increase strictly. *)
Theorem tree_groups_then_commands_in_store_order
    (toLowerCase : string -> string) (st : ListProvider.state)
    (element : option TreeItem) :
  exists gs cs,
    ListProvider.getChildren toLowerCase element st
    = (GroupNode <$> gs) ++ (CommandNode <$> cs)
    /\ StronglySorted
         (fun x y => CommandItem.index x < CommandItem.index y) cs.
Proof.
  destruct element as [[g|c0]|]; cbn [ListProvider.getChildren].
  - rewrite getGroupChildren_eq.
    destruct (command_part_sorted
                (fun i c => TreeSpec.directIn (GroupItem.groupPath g) c
                            && ListProvider.matchesSearch toLowerCase st c)
                (ListProvider.commands st) 0) as (cs & Heq & _ & Hsorted).
    cbn [fst snd Nat.add] in Heq. rewrite Heq.
    destruct (groupNodes_are_groups toLowerCase st
                (TreeSpec.firstAppearances
                   (omap (TreeSpec.subOf (GroupItem.groupPath g))
                      (List.filter (ListProvider.matchesSearch toLowerCase st)
                         (ListProvider.commands st))))) as [gs ->].
    now exists gs, cs.
  - exists [], []. split; [reflexivity | constructor].
  - rewrite getRootItems_eq.
    destruct (command_part_sorted
                (fun i c => ListProvider.ungrouped c
                            && ListProvider.matchesSearch toLowerCase st c)
                (ListProvider.commands st) 0) as (cs & Heq & _ & Hsorted).
    cbn [fst snd Nat.add] in Heq.
    rewrite (list_omap_ext _
               (fun entry : nat * CommandData.t =>
                  if ListProvider.ungrouped entry.2
                     && ListProvider.matchesSearch toLowerCase st entry.2
                  then Some (CommandNode (CommandItem.new entry.2 entry.1))
                  else None)
               _ (imap (fun i c => (i, c)) (ListProvider.commands st))).
    2:{ apply Forall2_same_length_lookup_2; [reflexivity|].
        intros i [j c] y Hx Hy. rewrite Hx in Hy. now injection Hy as <-. }
    rewrite Heq.
    destruct (groupNodes_are_groups toLowerCase st
                (TreeSpec.firstAppearances
                   (omap TreeSpec.topOf
                      (List.filter (ListProvider.matchesSearch toLowerCase st)
                         (ListProvider.commands st))))) as [gs ->].
    now exists gs, cs.
Qed.

(** ** Paths and their segments *)

Lemma split_nonempty (sep : ascii) (s : string) :
  exists w ws, Js.split sep s = w :: ws.
Proof.
  destruct s as [|c s]; cbn; [eauto|].
  destruct (Ascii.eqb c sep); [eauto|].
  destruct (Js.split sep s); eauto.
Qed.

Lemma concat_cons2 (sep x y : string) (l : list string) :
  String.concat sep (x :: y :: l) = x +:+ sep +:+ String.concat sep (y :: l).
Proof. reflexivity. Qed.

Lemma concat_split (sep : ascii) (s : string) :
  Js.join (String sep EmptyString) (Js.split sep s) = s.
Proof.
  unfold Js.join. induction s as [|c s IH]; [reflexivity|].
  cbn [Js.split]. destruct (split_nonempty sep s) as (w & ws & Hs).
  rewrite Hs in *. destruct (Ascii.eqb_spec c sep) as [->|Hc].
  - now rewrite concat_cons2, IH.
  - destruct ws as [|w2 ws]; [cbn in *; now rewrite IH|].
    rewrite concat_cons2 in *. now rewrite append_cons, IH.
Qed.

Lemma split_app_sep (sep : ascii) (a b : string) :
  Js.split sep (a +:+ String sep b) = Js.split sep a ++ Js.split sep b.
Proof.
  induction a as [|c a IH].
  - rewrite append_nil. cbn [Js.split]. now rewrite Ascii.eqb_refl.
  - rewrite append_cons. cbn [Js.split]. rewrite IH.
    destruct (Ascii.eqb c sep); [reflexivity|].
    now destruct (split_nonempty sep a) as (w & ws & ->).
Qed.

Lemma split_firstSegment (sep : ascii) (s : string) :
  Js.split sep (Js.firstSegment sep s) = [Js.firstSegment sep s].
Proof.
  unfold Js.firstSegment. induction s as [|c s IH]; [reflexivity|].
  cbn [Js.split]. destruct (Ascii.eqb c sep) eqn:Hc; [reflexivity|].
  destruct (split_nonempty sep s) as (w & ws & Hs). rewrite Hs in *.
  cbn [Js.split]. now rewrite Hc, IH.
Qed.

(** The parent path of a path that ends in a slash and one segment. *)
Lemma parent_of_subgroup (P next : string) :
  Js.split "/" next = [next] ->
  let parts := Js.split "/" (P +:+ "/" +:+ next) in
  (1 <? length parts)%nat = true
  /\ Js.join "/" (take (length parts - 1) parts) = P.
Proof.
  intros Hnext. cbn zeta.
  change ("/" +:+ next) with (String "/" next).
  rewrite split_app_sep, Hnext, length_app. cbn [length].
  destruct (split_nonempty "/" P) as (w & ws & HP).
  split.
  - rewrite HP. cbn [length]. apply Nat.ltb_lt. lia.
  - replace (length (Js.split "/" P) + 1 - 1) with (length (Js.split "/" P))
      by lia.
    rewrite take_app_length. apply (concat_split "/").
Qed.

(** X4: [getParent] undoes [getChildren]: the parent of every item shown
    under a group node is a group item with that node's path, and an item
    shown at the root has no parent. *)
Theorem getParent_of_child (toLowerCase : string -> string)
    (st : ListProvider.state) (element : option TreeItem) (item : TreeItem) :
  item ∈ ListProvider.getChildren toLowerCase element st ->
  GroupItem.groupPath <$> ListProvider.getParent item
  = match element with
    | Some (GroupNode g) => Some (GroupItem.groupPath g)
    | _ => None
    end.
Proof.
  destruct element as [[g|c0]|]; cbn [ListProvider.getChildren].
  - rewrite getGroupChildren_eq, elem_of_app, list_elem_of_fmap,
      list_elem_of_omap.
    intros [(path & -> & Hpath)| ([i c] & _ & Hsome)].
    + apply elem_of_firstAppearances, list_elem_of_omap in Hpath
        as (c & _ & Hsub).
      unfold TreeSpec.subOf in Hsub.
      destruct (CommandData.group c) as [gc|]; [|discriminate].
      destruct (_ && _); [|discriminate]. injection Hsub as <-.
      unfold ListProvider.groupNode, ListProvider.getParent.
      cbn [GroupItem.new GroupItem.groupPath].
      destruct (parent_of_subgroup (GroupItem.groupPath g)
                  (Js.firstSegment "/"
                     (Js.slice (String.length (GroupItem.groupPath g +:+ "/")) gc))
                  (split_firstSegment "/" _)) as [-> ->].
      reflexivity.
    + cbn [fst snd] in Hsome. unfold TreeSpec.directIn in Hsome.
      destruct (CommandData.group c) as [gc|] eqn:Hg; [|discriminate].
      destruct (Js.truthy gc) eqn:Ht; [|discriminate].
      destruct (String.eqb_spec gc (GroupItem.groupPath g)) as [->|];
        [|discriminate].
      destruct (ListProvider.matchesSearch _ _ _); [|discriminate].
      injection Hsome as <-. cbn. now rewrite Hg, Ht.
  - intros H. inversion H.
  - rewrite getRootItems_eq, elem_of_app, list_elem_of_fmap,
      list_elem_of_omap.
    intros [(path & -> & Hpath)| ([i c] & _ & Hsome)].
    + apply elem_of_firstAppearances, list_elem_of_omap in Hpath
        as (c & _ & Htop).
      unfold TreeSpec.topOf in Htop.
      destruct (CommandData.group c) as [gc|]; [|discriminate].
      destruct (Js.truthy gc); [|discriminate]. injection Htop as <-.
      unfold ListProvider.groupNode, ListProvider.getParent.
      cbn [GroupItem.new GroupItem.groupPath].
      now rewrite split_firstSegment.
    + unfold ListProvider.ungrouped, truthyOpt in Hsome.
      destruct (CommandData.group c) as [gc|] eqn:Hg.
      * destruct (Js.truthy gc) eqn:Ht; [discriminate|].
        destruct (ListProvider.matchesSearch _ _ _); [|discriminate].
        injection Hsome as <-. cbn. now rewrite Hg, Ht.
      * destruct (ListProvider.matchesSearch _ _ _); [|discriminate].
        injection Hsome as <-. cbn. now rewrite Hg.
Qed.

Lemma getParent_of_child_witness :
  let st := Scenario.store [Scenario.GA; Scenario.GB; Scenario.GC] in
  let parent := GroupNode (GroupItem.new "G" false (Some 2)) in
  let child := GroupNode (GroupItem.new "G/Sub" false (Some 1)) in
  child ∈ ListProvider.getChildren Js.toLowerCaseAscii (Some parent) st
  /\ GroupItem.groupPath <$> ListProvider.getParent child = Some "G".
Proof.
  cbn zeta.
  assert (GroupNode (GroupItem.new "G/Sub" false (Some 1))
          ∈ ListProvider.getChildren Js.toLowerCaseAscii
              (Some (GroupNode (GroupItem.new "G" false (Some 2))))
              (Scenario.store [Scenario.GA; Scenario.GB; Scenario.GC]))
    as Hin by (vm_compute; left).
  split; [exact Hin|].
  exact (getParent_of_child Js.toLowerCaseAscii _ _ _ Hin).
Defined.

(** ** Drops *)

Lemma length_delete_Some (l : list CommandData.t) (i : nat) (a : CommandData.t) :
  l !! i = Some a -> length (delete i l) = length l - 1.
Proof. intros Hi. apply length_delete. eauto. Qed.

(** Moved onto another entry, an action lands right before that entry. *)
Lemma moveItem_before_target (i t : nat) (l : list CommandData.t)
    (x tc : CommandData.t) :
  l !! i = Some x -> l !! t = Some tc -> i <> t ->
  exists j, ListProvider.moveItem i (Z.of_nat t) l !! j = Some x
            /\ ListProvider.moveItem i (Z.of_nat t) l !! S j = Some tc.
Proof.
  intros Hi Ht Hne.
  pose proof (lookup_lt_Some _ _ _ Hi) as Hilt.
  pose proof (lookup_lt_Some _ _ _ Ht) as Htlt.
  rewrite (moveItem_eq i (Z.of_nat t) l x Hi).
  pose proof (length_delete_Some l i x Hi) as Hlen.
  set (d := delete i l) in *.
  assert (exists s,
             Js.spliceStart (length d)
               (if (Z.of_nat i <? Z.of_nat t)%Z
                then (Z.of_nat t - 1)%Z else Z.of_nat t) = s
             /\ s <= length d /\ d !! s = Some tc) as (s & -> & Hs & Hd).
  { unfold Js.spliceStart. destruct (Z.ltb_spec (Z.of_nat i) (Z.of_nat t)).
    - exists (t - 1). destruct (Z.ltb_spec (Z.of_nat t - 1) 0); [lia|].
      split; [lia|]. split; [lia|]. subst d.
      rewrite list_lookup_delete_ge by lia.
      now replace (S (t - 1)) with t by lia.
    - exists t. destruct (Z.ltb_spec (Z.of_nat t) 0); [lia|].
      split; [lia|]. split; [lia|]. subst d.
      now rewrite list_lookup_delete_lt by lia. }
  assert (length (take s d) = s) as Htake by now apply length_take_le.
  exists s. split.
  - apply list_lookup_middle. now symmetry.
  - rewrite lookup_app_r by lia. rewrite Htake.
    replace (S s - s) with 1 by lia.
    transitivity (drop s d !! 0); [reflexivity|].
    now rewrite lookup_drop, Nat.add_0_r.
Qed.

(** X5: an action dropped on the command item of another entry of the
    store takes the group carried by that item and lands immediately
    before that entry. *)
Theorem drop_on_command_lands_before_target (target : CommandItem.t)
    (i : nat) (rest : list nat) (st : ListProvider.state)
    (a tc : CommandData.t) :
  ListProvider.commands st !! i = Some a ->
  ListProvider.commands st !! CommandItem.index target = Some tc ->
  i <> CommandItem.index target ->
  let r := ListProvider.handleDrop (Some (CommandNode target))
             (Some (DragCommands (i :: rest))) st in
  exists j,
    ListProvider.commands r.1 !! j
    = Some (CommandData.setGroup
              (CommandData.group (CommandItem.data target)) a)
    /\ ListProvider.commands r.1 !! S j = Some tc.
Proof.
  intros Hi Ht Hne. cbn zeta.
  pose proof (lookup_lt_Some _ _ _ Hi) as Hlt.
  unfold ListProvider.handleDrop. rewrite Hi.
  cbn [fst ListProvider.setCommands ListProvider.commands].
  set (t := CommandItem.index target) in *.
  set (g := CommandData.group (CommandItem.data target)).
  destruct (Z.eqb_spec (Z.of_nat t) (-1)); [lia|].
  destruct (Z.eqb_spec (Z.of_nat t) (Z.of_nat i)); [lia|].
  cbn [negb andb]. rewrite andb_true_r.
  case_bool_decide as Hgrp.
  - rewrite <- Hgrp, setGroup_same.
    now apply moveItem_before_target.
  - apply moveItem_before_target; [|now rewrite list_lookup_insert_ne|exact Hne].
    now apply list_lookup_insert_eq.
Qed.

Lemma drop_on_command_lands_before_target_witness :
  let st := Scenario.store [Scenario.A; Scenario.B; Scenario.C] in
  let r := ListProvider.handleDrop
             (Some (CommandNode (CommandItem.new Scenario.C 2)))
             (Some (DragCommands [0])) st in
  ListProvider.commands st !! 0 = Some Scenario.A
  /\ ListProvider.commands st !! 2 = Some Scenario.C
  /\ exists j,
      ListProvider.commands r.1 !! j = Some Scenario.AinX
      /\ ListProvider.commands r.1 !! S j = Some Scenario.C.
Proof.
  cbn zeta. split; [reflexivity|]. split; [reflexivity|].
  apply (drop_on_command_lands_before_target
           (CommandItem.new Scenario.C 2) 0 []
           (Scenario.store [Scenario.A; Scenario.B; Scenario.C])
           Scenario.A Scenario.C);
    [reflexivity | reflexivity | cbn; lia].
Defined.

(** X6: an action dropped on its own command item stays where it is: the
    store is the same list afterwards (it is still saved and the view
    refreshed). *)
Theorem drop_on_itself_keeps_store (target : CommandItem.t)
    (rest : list nat) (st : ListProvider.state) (a : CommandData.t) :
  ListProvider.commands st !! CommandItem.index target = Some a ->
  CommandData.group (CommandItem.data target) = CommandData.group a ->
  ListProvider.handleDrop (Some (CommandNode target))
    (Some (DragCommands (CommandItem.index target :: rest))) st
  = (st, ListProvider.saveCommands st ++ [Refresh]).
Proof.
  intros Hi Hgrp. pose proof (lookup_lt_Some _ _ _ Hi) as Hlt.
  unfold ListProvider.handleDrop. rewrite Hi.
  set (i := CommandItem.index target) in *.
  rewrite Hgrp, bool_decide_eq_true_2 by reflexivity.
  destruct (Z.eqb_spec (Z.of_nat i) (-1)); [lia|]. cbn [negb andb].
  assert (ListProvider.moveItem i (Z.of_nat i) (ListProvider.commands st)
          = ListProvider.commands st) as ->.
  { rewrite (moveItem_eq i (Z.of_nat i) _ a Hi).
    rewrite Z.ltb_irrefl.
    pose proof (length_delete_Some _ i a Hi) as Hlen.
    unfold Js.spliceStart. destruct (Z.ltb_spec (Z.of_nat i) 0); [lia|].
    replace (Z.to_nat (Z.min _ _)) with i by lia.
    rewrite delete_take_drop, take_app_le, drop_app_ge
      by (rewrite length_take; lia).
    rewrite take_take, Nat.min_id, length_take_le by lia.
    rewrite Nat.sub_diag, drop_0. now apply take_drop_middle. }
  now destruct st.
Qed.

Lemma drop_on_itself_keeps_store_witness :
  let st := Scenario.store [Scenario.A; Scenario.B; Scenario.C] in
  ListProvider.commands st !! 1 = Some Scenario.B
  /\ ListProvider.handleDrop
       (Some (CommandNode (CommandItem.new Scenario.B 1)))
       (Some (DragCommands [1])) st
     = (st, [WriteConfig "cmdrun.json"
               [Scenario.A; Scenario.B; Scenario.C]; Refresh]).
Proof.
  cbn zeta. split; [reflexivity|].
  exact (drop_on_itself_keeps_store (CommandItem.new Scenario.B 1) []
           (Scenario.store [Scenario.A; Scenario.B; Scenario.C])
           Scenario.B eq_refl eq_refl).
Defined.

Lemma filter_partition_length (P : CommandData.t -> bool)
    (l : list CommandData.t) :
  length (List.filter P l) + length (List.filter (fun c => negb (P c)) l)
  = length l.
Proof.
  induction l as [|c l IH]; [reflexivity|].
  cbn. destruct (P c); cbn; lia.
Qed.

Lemma filter_partition_perm (P : CommandData.t -> bool)
    (l : list CommandData.t) :
  List.filter P l ++ List.filter (fun c => negb (P c)) l ≡ₚ l.
Proof.
  induction l as [|c l IH]; [reflexivity|].
  cbn. destruct (P c); cbn.
  - now rewrite IH.
  - now rewrite <- Permutation_middle, IH.
Qed.

(** The removed positions below [t] are as many as the members among the
    first [t] entries. *)
Lemma sources_before_target (P : CommandData.t -> bool)
    (l : list CommandData.t) (t : nat) :
  length (List.filter (fun idx => (Z.of_nat idx <? Z.of_nat t)%Z)
            (Js.sortDescending (ListProvider.memberIndices P l)))
  = length (List.filter P (take t l)).
Proof.
  induction l as [|x l IH] using rev_ind; [now destruct t|].
  rewrite memberIndices_snoc.
  destruct (decide (t <= length l)) as [Hle|Hgt].
  - rewrite take_app_le by exact Hle. rewrite <- IH.
    destruct (P x); [|now rewrite app_nil_r].
    rewrite sortDescending_snoc_max by apply memberIndices_lt.
    cbn [List.filter].
    destruct (Z.ltb_spec (Z.of_nat (length l)) (Z.of_nat t)); [lia|reflexivity].
  - rewrite take_ge by (rewrite length_app; cbn; lia).
    rewrite take_ge in IH by lia.
    rewrite List.filter_app, length_app, <- IH. cbn [List.filter].
    destruct (P x); [|rewrite app_nil_r; cbn; lia].
    rewrite sortDescending_snoc_max by apply memberIndices_lt.
    cbn [List.filter length].
    destruct (Z.ltb_spec (Z.of_nat (length l)) (Z.of_nat t)); [cbn; lia|lia].
Qed.

(** The store of [handleGroupDrop] when the group has a member. *)
Lemma handleGroupDrop_commands (P : string) (target : option TreeItem)
    (st : ListProvider.state) :
  List.filter (ListProvider.inGroup P) (ListProvider.commands st) <> [] ->
  exists targetIndex : Z,
    ListProvider.commands (ListProvider.handleGroupDrop P target st).1
    = (Js.splice
         (List.filter (fun c => negb (ListProvider.inGroup P c))
            (ListProvider.commands st))
         (targetIndex
          - Z.of_nat
              (length
                 (List.filter (fun idx => (Z.of_nat idx <? targetIndex)%Z)
                    (Js.sortDescending
                       (ListProvider.memberIndices (ListProvider.inGroup P)
                          (ListProvider.commands st))))))
         0
         (List.filter (ListProvider.inGroup P) (ListProvider.commands st))).2
    /\ (forall c, target = Some (CommandNode c) ->
          targetIndex = Z.of_nat (CommandItem.index c)).
Proof.
  intros Hne. unfold ListProvider.handleGroupDrop.
  destruct (List.filter _ (ListProvider.commands st)) eqn:Hsrc; [easy|].
  rewrite <- Hsrc. clear Hsrc Hne.
  pose proof (removeLoop_spec (ListProvider.inGroup P)
                (ListProvider.commands st) [] []) as Hloop.
  rewrite !app_nil_r in Hloop. rewrite Hloop.
  cbn [fst ListProvider.setCommands ListProvider.commands].
  eexists. split; [reflexivity|].
  intros c ->.
  destruct (Z.eqb_spec (Z.of_nat (CommandItem.index c)) (-1)); [lia|reflexivity].
Qed.

(** X7: a group drop loses and duplicates nothing, and gathers the group:
    afterwards the store is the other actions, in their order, with all
    members of the group, in their order, inserted as one block. *)
Theorem group_drop_gathers_block (P : string) (target : option TreeItem)
    (st : ListProvider.state) :
  let st' := (ListProvider.handleGroupDrop P target st).1 in
  let members := List.filter (ListProvider.inGroup P) (ListProvider.commands st) in
  let others :=
    List.filter (fun c => negb (ListProvider.inGroup P c))
      (ListProvider.commands st) in
  ListProvider.commands st' ≡ₚ ListProvider.commands st
  /\ exists before after,
      ListProvider.commands st' = before ++ members ++ after
      /\ others = before ++ after.
Proof.
  cbn zeta.
  destruct (List.filter (ListProvider.inGroup P) (ListProvider.commands st))
    as [|m ms] eqn:Hm.
  - unfold ListProvider.handleGroupDrop. rewrite Hm. cbn [fst].
    split; [reflexivity|].
    exists (ListProvider.commands st), []. rewrite !app_nil_r.
    split; [reflexivity|].
    induction (ListProvider.commands st) as [|c l IH]; [reflexivity|].
    cbn in *. destruct (ListProvider.inGroup P c); [discriminate|].
    cbn. f_equal. now apply IH.
  - rewrite <- Hm.
    destruct (handleGroupDrop_commands P target st) as (ti & -> & _);
      [now rewrite Hm|].
    unfold Js.splice. cbn [snd]. rewrite Nat.add_0_r.
    set (s := Js.spliceStart _ _).
    split.
    + rewrite Permutation_app_swap_app, take_drop.
      apply filter_partition_perm.
    + eexists _, _. split; [reflexivity|]. now rewrite take_drop.
Qed.

(** X8: a group dropped on the command item of an entry outside the
    group is put immediately before that entry: afterwards the store is
    the non-members that stood before the entry, then all members of the
    group in their order, then the entry and the non-members after it. *)
Theorem group_drop_lands_before_target (P : string) (target : CommandItem.t)
    (st : ListProvider.state) (tc : CommandData.t) :
  ListProvider.commands st !! CommandItem.index target = Some tc ->
  ListProvider.inGroup P tc = false ->
  let st' :=
    (ListProvider.handleGroupDrop P (Some (CommandNode target)) st).1 in
  let members := List.filter (ListProvider.inGroup P) (ListProvider.commands st) in
  let othersOf :=
    List.filter (fun c => negb (ListProvider.inGroup P c)) in
  ListProvider.commands st'
  = othersOf (take (CommandItem.index target) (ListProvider.commands st))
    ++ members
    ++ tc :: othersOf (drop (S (CommandItem.index target))
                         (ListProvider.commands st)).
Proof.
  intros Ht Htc. cbn zeta.
  set (t := CommandItem.index target) in *.
  set (cmds := ListProvider.commands st) in *.
  pose proof (lookup_lt_Some _ _ _ Ht) as Hlt.
  assert (List.filter (fun c => negb (ListProvider.inGroup P c)) cmds
          = List.filter (fun c => negb (ListProvider.inGroup P c)) (take t cmds)
            ++ tc :: List.filter (fun c => negb (ListProvider.inGroup P c))
                       (drop (S t) cmds)) as Hothers.
  { rewrite <- (take_drop_middle cmds t tc Ht) at 1.
    rewrite List.filter_app. cbn [List.filter]. now rewrite Htc. }
  destruct (List.filter (ListProvider.inGroup P) cmds) as [|m ms] eqn:Hm.
  - unfold ListProvider.handleGroupDrop. fold cmds. rewrite Hm.
    cbn [fst app]. fold cmds. rewrite <- Hothers.
    clear -Hm. induction cmds as [|c l IH]; [reflexivity|].
    cbn in *. destruct (ListProvider.inGroup P c); [discriminate|].
    cbn. f_equal. now apply IH.
  - rewrite <- Hm.
    destruct (handleGroupDrop_commands P (Some (CommandNode target)) st)
      as (ti & -> & Hti); [fold cmds; now rewrite Hm|].
    rewrite (Hti target eq_refl). fold cmds t.
    rewrite sources_before_target.
    pose proof (filter_partition_length (ListProvider.inGroup P) (take t cmds))
      as Hpart.
    rewrite length_take_le in Hpart by lia.
    unfold Js.splice. cbn [snd]. rewrite Nat.add_0_r, Hothers.
    set (before := List.filter (fun c => negb (ListProvider.inGroup P c))
                     (take t cmds)) in *.
    set (k := length (List.filter (ListProvider.inGroup P) (take t cmds))) in *.
    assert (Js.spliceStart
              (length (before ++ tc :: List.filter
                         (fun c => negb (ListProvider.inGroup P c))
                         (drop (S t) cmds)))
              (Z.of_nat t - Z.of_nat k) = length before) as ->.
    { unfold Js.spliceStart. rewrite length_app. cbn [length].
      destruct (Z.ltb_spec (Z.of_nat t - Z.of_nat k) 0); lia. }
    now rewrite take_app_length, drop_app_length.
Qed.

Lemma group_drop_lands_before_target_witness :
  let st := Scenario.store [Scenario.GA; Scenario.GC; Scenario.GB; Scenario.GC] in
  ListProvider.commands st !! 3 = Some Scenario.GC
  /\ ListProvider.inGroup "G" Scenario.GC = false
  /\ ListProvider.commands
       (ListProvider.handleGroupDrop "G"
          (Some (CommandNode (CommandItem.new Scenario.GC 3))) st).1
     = [Scenario.GC; Scenario.GA; Scenario.GB; Scenario.GC].
Proof.
  cbn zeta. split; [reflexivity|]. split; [reflexivity|].
  exact (group_drop_lands_before_target "G" (CommandItem.new Scenario.GC 3)
           (Scenario.store [Scenario.GA; Scenario.GC; Scenario.GB; Scenario.GC])
           Scenario.GC eq_refl eq_refl).
Defined.

(** ** Import by merge *)

(** What the merge loop keeps true from any state it is started in. *)
Lemma mergeCommands_from (existing imported : list CommandData.t) :
  exists news,
    ListProvider.mergeCommands existing imported
    = (existing ++ news, length news)
    /\ sublist news imported
    /\ NoDup (ListProvider.mergeKey <$> news)
    /\ (forall c, c ∈ news ->
          ListProvider.mergeKey c ∉ ListProvider.mergeKey <$> existing)
    /\ (forall c, c ∈ imported ->
          ListProvider.mergeKey c
          ∈ ListProvider.mergeKey <$> (existing ++ news)).
Proof.
  unfold ListProvider.mergeCommands.
  match goal with
  | |- context [foldl ?f _ _] => set (step := f)
  end.
  assert (forall l cmds (keys : gset string) added,
             exists news,
               foldl step (cmds, keys, added) l
               = (cmds ++ news,
                  keys ∪ list_to_set (ListProvider.mergeKey <$> l),
                  added + length news)
               /\ sublist news l
               /\ NoDup (ListProvider.mergeKey <$> news)
               /\ (forall c, c ∈ news -> ListProvider.mergeKey c ∉ keys)
               /\ (forall c, c ∈ l ->
                     ListProvider.mergeKey c ∈ keys
                     \/ ListProvider.mergeKey c
                        ∈ ListProvider.mergeKey <$> news)) as Hfold.
  { induction l as [|c l IH]; intros cmds keys added.
    - exists []. rewrite app_nil_r, Nat.add_0_r. cbn.
      repeat split; try constructor; try set_solver.
      f_equal. f_equal. set_solver.
    - cbn [foldl]. unfold step at 2. case_bool_decide as Hkey.
      + destruct (IH cmds keys added) as (news & -> & Hsub & Hnd & Hfresh & Hcov).
        exists news. repeat split; auto.
        * f_equal. f_equal. set_solver.
        * now apply sublist_cons.
        * intros c' [->|Hc']%elem_of_cons; auto.
      + destruct (IH (cmds ++ [c]) ({[ListProvider.mergeKey c]} ∪ keys) (S added))
          as (news & -> & Hsub & Hnd & Hfresh & Hcov).
        exists (c :: news). repeat split.
        * rewrite <- app_assoc. cbn [app length fmap list_fmap].
          f_equal; [f_equal; set_solver | lia].
        * now apply sublist_skip.
        * cbn [fmap list_fmap]. constructor; [|exact Hnd].
          intros (c' & Heq & Hc')%list_elem_of_fmap.
          apply Hfresh in Hc'. rewrite <- Heq in Hc'. set_solver.
        * intros c' [->|Hc']%elem_of_cons; [exact Hkey|].
          apply Hfresh in Hc'. set_solver.
        * intros c' [->|Hc']%elem_of_cons.
          -- right. cbn. left.
          -- destruct (Hcov c' Hc') as [Hk|Hk].
             ++ apply elem_of_union in Hk as [Hk|Hk]; [|now left].
                apply elem_of_singleton in Hk. right. rewrite Hk. cbn. left.
             ++ right. cbn. now right. }
  destruct (Hfold imported existing
              (list_to_set (ListProvider.mergeKey <$> existing)) 0)
    as (news & -> & Hsub & Hnd & Hfresh & Hcov).
  exists news. split; [reflexivity|]. split; [exact Hsub|].
  split; [exact Hnd|]. split.
  - intros c Hc. specialize (Hfresh c Hc). set_solver.
  - intros c Hc. rewrite fmap_app, elem_of_app.
    destruct (Hcov c Hc) as [Hk|Hk]; [left; set_solver | now right].
Qed.

(** X9: a merge keeps the store as it is and appends to it: the commands
    added are imported commands, in the order of the document, none with
    the group-and-name key of a command of the store and no two with the
    same key; the number reported as added is their number and is at most
    the size of the document. *)
Theorem merge_appends_fresh_commands (existing imported : list CommandData.t) :
  exists news,
    ListProvider.mergeCommands existing imported
    = (existing ++ news, length news)
    /\ sublist news imported
    /\ length news <= length imported
    /\ NoDup (ListProvider.mergeKey <$> news)
    /\ forall c, c ∈ news ->
         ListProvider.mergeKey c ∉ ListProvider.mergeKey <$> existing.
Proof.
  destruct (mergeCommands_from existing imported)
    as (news & Heq & Hsub & Hnd & Hfresh & _).
  exists news. repeat split; auto. now apply sublist_length.
Qed.

(** X10: after a merge every command of the document is represented: its
    group-and-name key is the key of a command of the store. *)
Theorem merge_covers_document (existing imported : list CommandData.t)
    (c : CommandData.t) :
  c ∈ imported ->
  ListProvider.mergeKey c
  ∈ ListProvider.mergeKey <$> (ListProvider.mergeCommands existing imported).1.
Proof.
  intros Hc.
  destruct (mergeCommands_from existing imported) as (news & -> & _ & _ & _ & Hcov).
  now apply Hcov.
Qed.

Lemma merge_covers_document_witness :
  Scenario.B ∈ [Scenario.A; Scenario.B]
  /\ ListProvider.mergeKey Scenario.B
     ∈ ListProvider.mergeKey <$>
         (ListProvider.mergeCommands [Scenario.C] [Scenario.A; Scenario.B]).1.
Proof.
  assert (Scenario.B ∈ [Scenario.A; Scenario.B]) as Hin by (right; left).
  split; [exact Hin|].
  exact (merge_covers_document [Scenario.C] [Scenario.A; Scenario.B]
           Scenario.B Hin).
Defined.

(** X11: merging the same document a second time adds nothing: the store
    stays as the first merge left it and the number reported is zero. *)
Theorem merge_twice_adds_nothing (existing imported : list CommandData.t) :
  let merged := (ListProvider.mergeCommands existing imported).1 in
  ListProvider.mergeCommands merged imported = (merged, 0).
Proof.
  cbn zeta.
  destruct (mergeCommands_from existing imported)
    as (news & -> & _ & _ & _ & Hcov). cbn [fst].
  destruct (mergeCommands_from (existing ++ news) imported)
    as (news' & -> & Hsub & _ & Hfresh & _).
  destruct news' as [|c news']; [now rewrite app_nil_r|].
  exfalso. apply (Hfresh c); [now left|].
  apply Hcov. apply (sublist_subseteq _ _ Hsub). now left.
Qed.

(** ** Copies and deletions *)

Lemma duplicateCommand_commands (item : CommandItem.t)
    (st : ListProvider.state) (a : CommandData.t) :
  ListProvider.commands st !! CommandItem.index item = Some a ->
  ListProvider.commands (ListProvider.duplicateCommand item st).1
  = take (S (CommandItem.index item)) (ListProvider.commands st)
    ++ CommandData.setName (CommandData.name a +:+ " (copy)") a
       :: drop (S (CommandItem.index item)) (ListProvider.commands st).
Proof.
  intros Hi. pose proof (lookup_lt_Some _ _ _ Hi) as Hlt.
  unfold ListProvider.duplicateCommand. rewrite Hi.
  cbn [fst ListProvider.setCommands ListProvider.commands].
  unfold Js.splice, Js.spliceStart. cbn [snd].
  destruct (Z.ltb_spec (Z.of_nat (CommandItem.index item + 1)) 0); [lia|].
  replace (Z.to_nat (Z.min _ _)) with (S (CommandItem.index item)) by lia.
  now rewrite Nat.add_0_r.
Qed.

(** X12: duplicating an entry of the store puts the copy immediately
    after the original; the copy has every field of the original but the
    name, which gets the suffix [ (copy)], and no other entry changes or
    moves. *)
Theorem duplicate_inserts_copy_after_original (item : CommandItem.t)
    (st : ListProvider.state) (a : CommandData.t) :
  ListProvider.commands st !! CommandItem.index item = Some a ->
  let i := CommandItem.index item in
  let copy := CommandData.setName (CommandData.name a +:+ " (copy)") a in
  let cmds' := ListProvider.commands (ListProvider.duplicateCommand item st).1 in
  cmds' !! i = Some a
  /\ cmds' !! S i = Some copy
  /\ delete (S i) cmds' = ListProvider.commands st
  /\ CommandData.setName (CommandData.name a) copy = a.
Proof.
  intros Hi. cbn zeta. pose proof (lookup_lt_Some _ _ _ Hi) as Hlt.
  rewrite (duplicateCommand_commands item st a Hi).
  set (i := CommandItem.index item) in *.
  assert (length (take (S i) (ListProvider.commands st)) = S i) as Hlen
    by (apply length_take_le; lia).
  repeat split.
  - rewrite lookup_app_l by lia. now rewrite lookup_take_lt by lia.
  - apply list_lookup_middle. now symmetry.
  - rewrite <- Hlen at 1. rewrite delete_middle. apply take_drop.
  - now destruct a.
Qed.

Lemma duplicate_inserts_copy_after_original_witness :
  let st := Scenario.store [Scenario.A; Scenario.B] in
  ListProvider.commands st !! 0 = Some Scenario.A
  /\ ListProvider.commands
       (ListProvider.duplicateCommand (CommandItem.new Scenario.A 0) st).1
     !! 1 = Some (CommandData.simple "A (copy)" None).
Proof.
  cbn zeta. split; [reflexivity|].
  destruct (duplicate_inserts_copy_after_original
              (CommandItem.new Scenario.A 0)
              (Scenario.store [Scenario.A; Scenario.B]) Scenario.A eq_refl)
    as (_ & Hcopy & _).
  exact Hcopy.
Defined.

(** X13: deleting the copy that a duplication made gives back the
    provider as it was before the duplication. *)
Theorem delete_copy_restores_store (item copyItem : CommandItem.t)
    (st : ListProvider.state) (a : CommandData.t) :
  ListProvider.commands st !! CommandItem.index item = Some a ->
  CommandItem.index copyItem = S (CommandItem.index item) ->
  (ListProvider.deleteCommand true copyItem
     (ListProvider.duplicateCommand item st).1).1
  = st.
Proof.
  intros Hi Hcopy. pose proof (lookup_lt_Some _ _ _ Hi) as Hlt.
  unfold ListProvider.deleteCommand. cbn [fst].
  rewrite Hcopy, (duplicateCommand_commands item st a Hi).
  set (i := CommandItem.index item) in *.
  assert (length (take (S i) (ListProvider.commands st)) = S i) as Hlen
    by (apply length_take_le; lia).
  rewrite (splice_remove_one _ (S i)
             (CommandData.setName (CommandData.name a +:+ " (copy)") a))
    by (apply list_lookup_middle; now symmetry).
  cbn [snd]. rewrite <- Hlen at 1. rewrite delete_middle, take_drop.
  subst i. unfold ListProvider.duplicateCommand. rewrite Hi. now destruct st.
Qed.

Lemma delete_copy_restores_store_witness :
  let st := Scenario.store [Scenario.A; Scenario.B] in
  ListProvider.commands st !! 0 = Some Scenario.A
  /\ (ListProvider.deleteCommand true (CommandItem.new Scenario.A 1)
        (ListProvider.duplicateCommand (CommandItem.new Scenario.A 0) st).1).1
     = st.
Proof.
  cbn zeta. split; [reflexivity|].
  exact (delete_copy_restores_store (CommandItem.new Scenario.A 0)
           (CommandItem.new Scenario.A 1)
           (Scenario.store [Scenario.A; Scenario.B]) Scenario.A
           eq_refl eq_refl).
Defined.

(** ** The URLs of a run *)

Lemma mjoin_cons {A} (x : list A) (l : list (list A)) :
  mjoin (x :: l) = x ++ mjoin l.
Proof. reflexivity. Qed.

Lemma openUrls_later (platform : string) (us : list UrlItem.t)
    (f : nat -> nat) :
  (forall i, 0 < f i) ->
  mjoin (imap (fun i urlItem =>
                 (if (0 <? f i)%nat then [Extension.Delay 100] else [])
                 ++ [Extension.openUrl platform urlItem]) us)
  = us ≫= fun u' => [Extension.Delay 100; Extension.openUrl platform u'].
Proof.
  revert f. induction us as [|u us IH]; intros f Hf; [reflexivity|].
  rewrite imap_cons, mjoin_cons, bind_cons. unfold compose. cbv beta.
  rewrite (IH (fun i => f (S i))) by auto.
  destruct (Nat.ltb_spec 0 (f 0)); [reflexivity|].
  specialize (Hf 0). lia.
Qed.

(** X14: the URLs of an action are opened in their order, the first one
    at once and every later one after one pause of 100 ms: there is no
    pause before the first URL, after the last, or twice in a row. *)
Theorem openUrls_pauses_between (platform : string) (u : UrlItem.t)
    (us : list UrlItem.t) :
  Extension.openUrls platform [] = []
  /\ Extension.openUrls platform (u :: us)
     = Extension.openUrl platform u
       :: (us ≫= fun u' => [Extension.Delay 100; Extension.openUrl platform u']).
Proof.
  split; [reflexivity|].
  unfold Extension.openUrls.
  rewrite imap_cons, mjoin_cons. unfold compose. cbv beta.
  rewrite (openUrls_later platform us S) by lia. reflexivity.
Qed.

(** ** Saving and refreshing *)

Lemma persisted_nothing (st : ListProvider.state) (evs : list Event) :
  (forall p cmds, WriteConfig p cmds ∉ evs) ->
  StoreSpec.persisted st (st, evs).
Proof.
  intros Hno. unfold StoreSpec.persisted. cbn [fst snd].
  split; [reflexivity|]. split; [reflexivity|]. split; [reflexivity|].
  split; [|easy].
  intros p cmds H. now apply Hno in H.
Qed.

Lemma persisted_saved (st : ListProvider.state) (cmds : list CommandData.t)
    (pre post : list Event) :
  (forall p c, WriteConfig p c ∉ pre) ->
  (forall p c, WriteConfig p c ∉ post) ->
  Refresh ∈ post ->
  StoreSpec.persisted st
    (ListProvider.setCommands cmds st,
     pre ++ ListProvider.saveCommands (ListProvider.setCommands cmds st) ++ post).
Proof.
  intros Hpre Hpost Hrefresh. unfold StoreSpec.persisted, ListProvider.saveCommands.
  cbn [fst snd ListProvider.setCommands ListProvider.configPath
       ListProvider.commands ListProvider.expandedGroups
       ListProvider.searchFilter].
  split; [reflexivity|]. split; [reflexivity|]. split; [reflexivity|]. split.
  - intros p c. rewrite !elem_of_app. intros [H| [H|H]].
    + now apply Hpre in H.
    + destruct (ListProvider.configPath st) as [q|].
      * apply list_elem_of_singleton in H. now injection H as -> ->.
      * apply list_elem_of_singleton in H. discriminate.
    + now apply Hpost in H.
  - intros _. split.
    + rewrite !elem_of_app. auto.
    + intros p ->. rewrite !elem_of_app. right. left. now left.
Qed.

Lemma handleGroupDrop_shape (P : string) (target : option TreeItem)
    (st : ListProvider.state) :
  ListProvider.handleGroupDrop P target st = (st, [])
  \/ exists cmds,
      ListProvider.handleGroupDrop P target st
      = (ListProvider.setCommands cmds st,
         ListProvider.saveCommands (ListProvider.setCommands cmds st)
         ++ [Refresh]).
Proof.
  unfold ListProvider.handleGroupDrop.
  destruct (List.filter _ _); [now left|]. right.
  destruct (foldl _ _ _). eauto.
Qed.

Lemma handleDrop_shape (target : option TreeItem)
    (dataTransfer : option DragData) (st : ListProvider.state) :
  ListProvider.handleDrop target dataTransfer st = (st, [])
  \/ exists cmds,
      ListProvider.handleDrop target dataTransfer st
      = (ListProvider.setCommands cmds st,
         ListProvider.saveCommands (ListProvider.setCommands cmds st)
         ++ [Refresh]).
Proof.
  unfold ListProvider.handleDrop.
  destruct dataTransfer as [[[|i rest]|P]|]; [now left| |apply handleGroupDrop_shape|now left].
  destruct (ListProvider.commands st !! i); [|now left]. right.
  match goal with
  | |- context [let '(tg, ti) := ?p in _] => destruct p
  end.
  eauto.
Qed.

Lemma no_write_singleton (e : Event) :
  (forall p c, e <> WriteConfig p c) ->
  forall p c, WriteConfig p c ∉ [e].
Proof.
  intros He p c H. apply list_elem_of_singleton in H. symmetry in H.
  now apply He in H.
Qed.

(** X15: a drop, a deletion, a duplication and an import keep the
    expansion state, the filter and the workspace of the provider; what
    they write is the store they leave, to the configuration file of the
    workspace; and none of them changes the store without asking for a
    refresh and, when a workspace is open, writing the new store. *)
Theorem store_changes_are_persisted (st : ListProvider.state)
    (target : option TreeItem) (dataTransfer : option DragData)
    (confirmed : bool) (item : CommandItem.t)
    (uris : option string) (file : ListProvider.ImportedFile)
    (action : option ListProvider.ImportAction) :
  StoreSpec.persisted st (ListProvider.handleDrop target dataTransfer st)
  /\ StoreSpec.persisted st (ListProvider.deleteCommand confirmed item st)
  /\ StoreSpec.persisted st (ListProvider.duplicateCommand item st)
  /\ StoreSpec.persisted st (ListProvider.importConfig uris file action st).
Proof.
  assert (forall cmds,
             StoreSpec.persisted st
               (ListProvider.setCommands cmds st,
                ListProvider.saveCommands (ListProvider.setCommands cmds st)
                ++ [Refresh])) as Hsaved.
  { intros cmds. apply (persisted_saved st cmds [] [Refresh]);
      [easy | now apply no_write_singleton | now left]. }
  assert (StoreSpec.persisted st (st, [])) as Hnone
    by (apply persisted_nothing; intros p c H; inversion H).
  split; [|split; [|split]].
  - destruct (handleDrop_shape target dataTransfer st) as [->| [cmds ->]]; auto.
  - unfold ListProvider.deleteCommand. destruct confirmed; auto.
  - unfold ListProvider.duplicateCommand.
    destruct (ListProvider.commands st !! _); auto.
  - unfold ListProvider.importConfig.
    destruct uris; [|exact Hnone].
    destruct file as [error|imported].
    { apply persisted_nothing. now apply no_write_singleton. }
    destruct (ListProvider.invalidImport imported).
    { apply persisted_nothing. now apply no_write_singleton. }
    destruct action as [[|]|]; [| |exact Hnone].
    + destruct (ListProvider.mergeCommands _ _) as [cmds added].
      apply persisted_saved;
        [now apply no_write_singleton | now apply no_write_singleton | now left].
    + apply (persisted_saved st _ []); [easy| |now left].
      intros p c [H|H]%elem_of_cons; [discriminate|].
      apply list_elem_of_singleton in H. discriminate.
Qed.

(** ** The search filter *)

Lemma includes_unfold (s sub : string) :
  Js.includes s sub
  = Js.startsWith s sub
    || match s with
       | EmptyString => false
       | String _ s' => Js.includes s' sub
       end.
Proof. destruct s; reflexivity. Qed.

Lemma includes_iff (s sub : string) :
  Js.includes s sub = true <-> exists pre post, s = pre +:+ sub +:+ post.
Proof.
  split.
  - induction s as [|c s IH]; rewrite includes_unfold, orb_true_iff,
      startsWith_iff.
    + intros [[rest ->]|]; [|discriminate]. now exists EmptyString, rest.
    + intros [[rest ->]|Hs]; [now exists EmptyString, rest|].
      destruct (IH Hs) as (pre & post & ->).
      exists (String c pre), post. now rewrite append_cons.
  - intros (pre & post & ->). induction pre as [|c pre IH].
    + rewrite append_nil, includes_unfold, orb_true_iff, startsWith_iff. eauto.
    + rewrite append_cons, includes_unfold, IH. apply orb_true_r.
Qed.

Lemma includes_trans (s b a : string) :
  Js.includes s b = true -> Js.includes b a = true -> Js.includes s a = true.
Proof.
  rewrite !includes_iff.
  intros (pre & post & ->) (pre' & post' & ->).
  exists (pre +:+ pre'), (post' +:+ post). now rewrite !append_assoc.
Qed.

Lemma existsb_impl {A} (p q : A -> bool) (l : list A) :
  (forall x, p x = true -> q x = true) ->
  existsb p l = true -> existsb q l = true.
Proof.
  intros Hpq. rewrite !existsb_exists. intros (x & Hx & Hp). eauto.
Qed.

Lemma matchesSearch_orb (toLowerCase : string -> string)
    (st : ListProvider.state) (c : CommandData.t) :
  let has (s : string) :=
    Js.includes (toLowerCase s) (ListProvider.searchFilter st) in
  ListProvider.matchesSearch toLowerCase st c
  = negb (Js.truthy (ListProvider.searchFilter st))
    || has (CommandData.name c)
    || match CommandData.group c with
       | Some g => Js.truthy g && has g
       | None => false
       end
    || match CommandData.commands c with
       | Some cs => existsb has cs
       | None => false
       end
    || existsb (fun u => has (UrlItem.url u)) (effectiveUrls c)
    || existsb (fun p => has (ProgramItem.path p)) (searchPrograms c).
Proof.
  cbn zeta. unfold ListProvider.matchesSearch.
  repeat match goal with
         | |- context [if ?b then true else _] => destruct b; cbn [orb]
         end; reflexivity.
Qed.

(** X16: lengthening the filter can only hide actions: an action that
    matches a filter matches every filter contained in it, whatever the
    lowering of letters does. *)
Theorem shorter_filter_matches_more (toLowerCase : string -> string)
    (st1 st2 : ListProvider.state) (c : CommandData.t) :
  Js.includes (ListProvider.searchFilter st2) (ListProvider.searchFilter st1)
  = true ->
  ListProvider.matchesSearch toLowerCase st2 c = true ->
  ListProvider.matchesSearch toLowerCase st1 c = true.
Proof.
  intros Hsub. rewrite !matchesSearch_orb. cbn zeta.
  set (f1 := ListProvider.searchFilter st1) in *.
  set (f2 := ListProvider.searchFilter st2) in *.
  assert (forall s, Js.includes (toLowerCase s) f2 = true ->
                    Js.includes (toLowerCase s) f1 = true) as Hhas
    by (intros s Hs; now apply (includes_trans _ f2)).
  destruct (Js.truthy f1) eqn:Ht1; [|reflexivity].
  assert (Js.truthy f2 = true) as ->.
  { destruct f2; [|reflexivity]. destruct f1; [discriminate|].
    cbn in Hsub. discriminate. }
  cbn [negb orb]. rewrite !orb_true_iff.
  intros [[[[H|H]|H]|H]|H].
  - left. left. left. left. now apply Hhas.
  - left. left. left. right. destruct (CommandData.group c) as [g|]; [|easy].
    apply andb_true_iff in H as [-> H]. now apply Hhas.
  - left. left. right. destruct (CommandData.commands c) as [cs|]; [|easy].
    revert H. now apply existsb_impl.
  - left. right. revert H. apply existsb_impl. intros u. apply Hhas.
  - right. revert H. apply existsb_impl. intros p. apply Hhas.
Qed.

Lemma shorter_filter_matches_more_witness :
  let st1 := ListProvider.mkState [] ∅ "ui" None in
  let st2 := ListProvider.mkState [] ∅ "build" None in
  let c := CommandData.simple "Build all" None in
  Js.includes (ListProvider.searchFilter st2) (ListProvider.searchFilter st1)
  = true
  /\ ListProvider.matchesSearch Js.toLowerCaseAscii st2 c = true
  /\ ListProvider.matchesSearch Js.toLowerCaseAscii st1 c = true.
Proof.
  cbn zeta. split; [reflexivity|]. split; [reflexivity|].
  exact (shorter_filter_matches_more Js.toLowerCaseAscii
           (ListProvider.mkState [] ∅ "ui" None)
           (ListProvider.mkState [] ∅ "build" None)
           (CommandData.simple "Build all" None) eq_refl eq_refl).
Defined.

(** ** External terminals *)

Lemma find_none_iff {A} (p : A -> bool) (l : list A) :
  (forall x, x ∈ l -> p x = false) -> List.find p l = None.
Proof.
  induction l as [|x l IH]; intros Hp; [reflexivity|].
  cbn. rewrite (Hp x) by now left. apply IH. intros y Hy. apply Hp. now right.
Qed.

Section TerminalFacts.

Variable env : string -> option string.
Variable existsSync : string -> bool.
Variable pathJoin : list string -> string.

Local Abbreviation profilesOf platform :=
  (Terminal.getTerminalProfiles platform env existsSync pathJoin).

(** The profile that stands first on each platform. *)
Lemma default_profile (platform : string) :
  exists first more,
    profilesOf platform = first :: more
    /\ TerminalProfile.name first <> "iTerm2"
    /\ TerminalProfile.path first
       = if String.eqb platform "win32" then "cmd.exe"
         else if String.eqb platform "darwin" then "Terminal.app"
         else "gnome-terminal".
Proof.
  unfold Terminal.getTerminalProfiles.
  destruct (String.eqb platform "win32");
    [|destruct (String.eqb platform "darwin")];
    eexists _, _; (split; [reflexivity|]); split; (discriminate || reflexivity).
Qed.

(** X17: a terminal profile name that no profile of the platform bears
    is not an error: the external terminal is started exactly as when no
    profile is requested, that is with the Command Prompt on [win32],
    with Terminal on [darwin] and with GNOME Terminal elsewhere. *)
Theorem unknown_profile_runs_default (platform name : string)
    (runAsAdmin autoClose : bool) (cmdJoined psJoined : string) :
  (forall p,
      p ∈ Terminal.getTerminalProfiles platform env existsSync pathJoin ->
      TerminalProfile.name p <> name) ->
  Terminal.externalTerminal platform env existsSync pathJoin (Some name)
    runAsAdmin autoClose cmdJoined psJoined
  = Terminal.externalTerminal platform env existsSync pathJoin None
      runAsAdmin autoClose cmdJoined psJoined.
Proof.
  intros Hnone. unfold Terminal.externalTerminal, Terminal.selectProfile.
  destruct (default_profile platform) as (first & more & Hp & Hname & Hpath).
  cbn [truthyOpt]. rewrite Hp in *. cbn [head].
  destruct (Js.truthy name); [|reflexivity].
  rewrite find_none_iff.
  2:{ intros p Hin. apply bool_decide_eq_false_2. intros [= Heq].
      now apply (Hnone p). }
  destruct (String.eqb platform "win32") eqn:Hw;
    [|destruct (String.eqb platform "darwin") eqn:Hd].
  - unfold Terminal.launchWindows, Terminal.pathOr. now rewrite Hpath.
  - unfold Terminal.launchMac. cbn [fmap option_fmap option_map].
    rewrite !bool_decide_eq_false_2; [reflexivity| |discriminate].
    intros [= Heq]. now apply Hname.
  - unfold Terminal.launchLinux, Terminal.pathOr. now rewrite Hpath.
Qed.

(** X18: on every platform, whatever is installed, the list of terminal
    profiles is not empty and no two profiles bear the same name, so that
    a name selects at most one terminal. *)
Theorem terminal_profiles_named_apart (platform : string) :
  Terminal.getTerminalProfiles platform env existsSync pathJoin <> []
  /\ NoDup (TerminalProfile.name
              <$> Terminal.getTerminalProfiles platform env existsSync pathJoin).
Proof.
  split.
  - destruct (default_profile platform) as (first & more & -> & _). discriminate.
  - unfold Terminal.getTerminalProfiles.
    destruct (String.eqb platform "win32");
      [|destruct (String.eqb platform "darwin")].
    + destruct (Terminal.firstExisting _ _), (Terminal.firstExisting _ _),
        (Terminal.firstExisting _ _);
        cbn [app fmap list_fmap TerminalProfile.name];
        apply (bool_decide_unpack _); vm_compute; exact I.
    + apply (bool_decide_unpack _). vm_compute. exact I.
    + apply (bool_decide_unpack _). vm_compute. exact I.
Qed.

End TerminalFacts.

Lemma unknown_profile_runs_default_witness :
  let env (_ : string) : option string := None in
  let existsSync (_ : string) := false in
  let pathJoin := String.concat "/" in
  (forall p, p ∈ Terminal.getTerminalProfiles "linux" env existsSync pathJoin ->
             TerminalProfile.name p <> "Alacritty")
  /\ Terminal.externalTerminal "linux" env existsSync pathJoin
       (Some "Alacritty") false false "make" "make"
     = Terminal.Spawn "gnome-terminal"
         ["--"; "bash"; "-c"; "make; exec bash"] false.
Proof.
  cbn zeta.
  assert (forall p,
             p ∈ Terminal.getTerminalProfiles "linux" (fun _ => None)
                   (fun _ => false) (String.concat "/") ->
             TerminalProfile.name p <> "Alacritty") as Hnone.
  { intros p Hp. vm_compute in Hp.
    repeat (apply elem_of_cons in Hp as [->|Hp]; [discriminate|]).
    inversion Hp. }
  split; [exact Hnone|].
  rewrite (unknown_profile_runs_default (fun _ => None) (fun _ => false)
             (String.concat "/") "linux" "Alacritty" false false
             "make" "make" Hnone).
  reflexivity.
Defined.

(** ** Escaping *)

Lemma replaceAll_app (c : ascii) (repl a b : string) :
  Js.replaceAll c repl (a +:+ b)
  = Js.replaceAll c repl a +:+ Js.replaceAll c repl b.
Proof.
  induction a as [|x a IH]; [reflexivity|].
  rewrite append_cons. cbn [Js.replaceAll]. rewrite IH.
  destruct (Ascii.eqb x c); [now rewrite append_assoc | now rewrite append_cons].
Qed.

Lemma replaceAll_cons (c : ascii) (repl : string) (x : ascii) (s : string) :
  Js.replaceAll c repl (String x s)
  = (if Ascii.eqb x c then repl else String x EmptyString)
    +:+ Js.replaceAll c repl s.
Proof. cbn [Js.replaceAll]. now destruct (Ascii.eqb x c). Qed.

(** What the three replacements of [escapeMac] make of one character. *)
Lemma escapeMac_cons (x : ascii) (s : string) :
  Terminal.escapeMac (String x s)
  = (if Ascii.eqb x "\" then "\\"
     else if Ascii.eqb x Terminal.dquoteChar then "\" +:+ dquote
     else if Ascii.eqb x "'" then "'\''"
     else String x EmptyString)
    +:+ Terminal.escapeMac s.
Proof.
  unfold Terminal.escapeMac.
  rewrite replaceAll_cons, !replaceAll_app.
  destruct (Ascii.eqb_spec x "\") as [->|H1]; [reflexivity|].
  rewrite replaceAll_cons, !replaceAll_app.
  destruct (Ascii.eqb_spec x Terminal.dquoteChar) as [->|H2]; [reflexivity|].
  rewrite replaceAll_cons.
  destruct (Ascii.eqb_spec x "'") as [->|H3]; reflexivity.
Qed.

Lemma bareQuote_escapeMac (s : string) :
  EscapeSpec.bareQuote (Terminal.escapeMac s) = false.
Proof.
  induction s as [|x s IH]; [reflexivity|].
  rewrite escapeMac_cons.
  destruct (Ascii.eqb_spec x "\") as [->|H1]; [exact IH|].
  destruct (Ascii.eqb_spec x Terminal.dquoteChar) as [->|H2]; [exact IH|].
  destruct (Ascii.eqb_spec x "'") as [->|H3]; [exact IH|].
  rewrite append_cons, append_nil. cbn [EscapeSpec.bareQuote].
  apply Ascii.eqb_neq in H1, H2. now rewrite H1, H2.
Qed.

(** X19: on [darwin] the external terminal is started by one AppleScript
    line that holds the joined commands, escaped, between double quotes;
    read from the left, with a backslash taking the next character with
    it, the escaped commands hold no double quote on its own and end in
    no pending backslash, whatever the commands are: they cannot close
    the quotation they stand in. *)
Theorem mac_script_keeps_commands_quoted (env : string -> option string)
    (existsSync : string -> bool) (pathJoin : list string -> string)
    (terminalProfile : option string) (runAsAdmin autoClose : bool)
    (cmdJoined psJoined : string) :
  (exists opening,
     Terminal.externalTerminal "darwin" env existsSync pathJoin
       terminalProfile runAsAdmin autoClose cmdJoined psJoined
     = Terminal.ExecLine
         (opening +:+ dquote +:+ Terminal.escapeMac cmdJoined +:+ dquote
          +:+ "'"))
  /\ EscapeSpec.bareQuote (Terminal.escapeMac cmdJoined) = false.
Proof.
  split; [|apply bareQuote_escapeMac].
  unfold Terminal.externalTerminal. cbn [String.eqb Ascii.eqb Bool.eqb].
  unfold Terminal.launchMac.
  case_bool_decide; eexists; rewrite <- ?append_assoc; reflexivity.
Qed.

Lemma escapeHtml_cons (x : ascii) (s : string) :
  CommandForm.escapeHtml (String x s)
  = EscapeSpec.htmlEntity x +:+ CommandForm.escapeHtml s.
Proof.
  unfold CommandForm.escapeHtml, EscapeSpec.htmlEntity.
  rewrite replaceAll_cons, !replaceAll_app.
  destruct (Ascii.eqb_spec x "&") as [->|H1]; [reflexivity|].
  rewrite replaceAll_cons, !replaceAll_app.
  destruct (Ascii.eqb_spec x "<") as [->|H2]; [reflexivity|].
  rewrite replaceAll_cons, !replaceAll_app.
  destruct (Ascii.eqb_spec x ">") as [->|H3]; [reflexivity|].
  rewrite replaceAll_cons, !replaceAll_app.
  destruct (Ascii.eqb_spec x Terminal.dquoteChar) as [->|H4]; [reflexivity|].
  rewrite replaceAll_cons.
  destruct (Ascii.eqb_spec x "'") as [->|H5]; reflexivity.
Qed.

Lemma occurs_app (c : ascii) (a b : string) :
  EscapeSpec.occurs c (a +:+ b)
  = EscapeSpec.occurs c a || EscapeSpec.occurs c b.
Proof.
  induction a as [|x a IH]; [reflexivity|].
  rewrite append_cons. cbn [EscapeSpec.occurs]. now rewrite IH, orb_assoc.
Qed.

(** The cases of [htmlEntity], with what is known of the character. *)
Ltac entity_cases x :=
  unfold EscapeSpec.htmlEntity;
  destruct (Ascii.eqb_spec x "&") as [->|?];
  [|destruct (Ascii.eqb_spec x "<") as [->|?];
    [|destruct (Ascii.eqb_spec x ">") as [->|?];
      [|destruct (Ascii.eqb_spec x Terminal.dquoteChar) as [->|?];
        [|destruct (Ascii.eqb_spec x "'") as [->|?]]]]].

Lemma occurs_htmlEntity (c x : ascii) :
  c = "<"%char \/ c = ">"%char \/ c = Terminal.dquoteChar \/ c = "'"%char ->
  EscapeSpec.occurs c (EscapeSpec.htmlEntity x) = false.
Proof.
  intros Hc. entity_cases x;
    try (destruct Hc as [->| [->| [->| ->]]]; reflexivity).
  cbn [EscapeSpec.occurs]. rewrite orb_false_r.
  apply Ascii.eqb_neq. destruct Hc as [->| [->| [->| ->]]]; assumption.
Qed.

(** X20: the text that [_escapeHtml] returns holds none of the
    characters [<], [>], double quote and single quote, whatever the text
    it was given. *)
Theorem escapeHtml_leaves_no_markup (text : string) :
  EscapeSpec.occurs "<" (CommandForm.escapeHtml text) = false
  /\ EscapeSpec.occurs ">" (CommandForm.escapeHtml text) = false
  /\ EscapeSpec.occurs Terminal.dquoteChar (CommandForm.escapeHtml text) = false
  /\ EscapeSpec.occurs "'" (CommandForm.escapeHtml text) = false.
Proof.
  assert (forall c,
             c = "<"%char \/ c = ">"%char \/ c = Terminal.dquoteChar
             \/ c = "'"%char ->
             EscapeSpec.occurs c (CommandForm.escapeHtml text) = false) as H.
  { intros c Hc. induction text as [|x text IH]; [reflexivity|].
    now rewrite escapeHtml_cons, occurs_app, occurs_htmlEntity, IH. }
  repeat split; apply H; auto.
Qed.

Lemma htmlEntity_prefix_free (x1 x2 : ascii) (t1 t2 : string) :
  EscapeSpec.htmlEntity x1 +:+ t1 = EscapeSpec.htmlEntity x2 +:+ t2 ->
  x1 = x2 /\ t1 = t2.
Proof.
  entity_cases x1; entity_cases x2;
    rewrite ?append_cons, ?append_nil; intros H;
    try discriminate H; injection H; intros; subst;
    try congruence; auto.
Qed.

(** X21: [_escapeHtml] loses nothing: two texts with the same escaped
    form are the same text. *)
Theorem escapeHtml_injective (s1 s2 : string) :
  CommandForm.escapeHtml s1 = CommandForm.escapeHtml s2 -> s1 = s2.
Proof.
  revert s2. induction s1 as [|x1 s1 IH]; intros [|x2 s2].
  - reflexivity.
  - rewrite escapeHtml_cons. intros H. exfalso. revert H.
    entity_cases x2; rewrite ?append_cons; discriminate.
  - rewrite escapeHtml_cons. intros H. exfalso. revert H.
    entity_cases x1; rewrite ?append_cons; discriminate.
  - rewrite !escapeHtml_cons.
    intros [-> H]%htmlEntity_prefix_free. f_equal. now apply IH.
Qed.

Lemma escapeHtml_injective_witness :
  CommandForm.escapeHtml "a<b" = "a&lt;b"
  /\ CommandForm.escapeHtml "a<b" = CommandForm.escapeHtml "a<b"
  /\ "a<b" = "a<b".
Proof.
  split; [reflexivity|]. split; [reflexivity|].
  exact (escapeHtml_injective "a<b" "a<b" eq_refl).
Defined.

(** ** The groups offered for completion *)

Lemma add_prefixes (parts : list string) (l : list nat) (G : gset string) :
  foldl (fun (groups : gset string) i =>
           {[Js.join "/" (take i parts)]} ∪ groups) G l
  = G ∪ list_to_set ((fun i => Js.join "/" (take i parts)) <$> l).
Proof.
  revert G. induction l as [|i l IH]; intros G; cbn [foldl].
  - cbn. set_solver.
  - rewrite IH. cbn [fmap list_fmap]. rewrite list_to_set_cons. set_solver.
Qed.

Lemma allGroupPaths_intro (st : ListProvider.state) (c : CommandData.t)
    (g : string) (i : nat) :
  c ∈ ListProvider.commands st ->
  CommandData.group c = Some g -> Js.truthy g = true ->
  1 <= i <= length (Js.split "/" g) ->
  Js.join "/" (take i (Js.split "/" g)) ∈ ListProvider.allGroupPaths st.
Proof.
  intros Hc Hg Ht Hi. unfold ListProvider.allGroupPaths.
  match goal with
  | |- context [foldl ?f _ _] => set (outer := f)
  end.
  assert (forall l G x, x ∈ G -> x ∈ foldl outer G l) as Hkeep.
  { induction l as [|c' l IH]; intros G x Hx; [exact Hx|].
    cbn [foldl]. apply IH. unfold outer.
    destruct (CommandData.group c') as [g'|]; [|exact Hx].
    destruct (Js.truthy g'); [|exact Hx].
    rewrite add_prefixes. set_solver. }
  generalize (∅ : gset string).
  induction (ListProvider.commands st) as [|c' l IH]; intros G;
    [inversion Hc|].
  cbn [foldl]. apply elem_of_cons in Hc as [<-|Hc]; [|now apply IH].
  apply Hkeep. unfold outer. rewrite Hg, Ht, add_prefixes.
  apply elem_of_union_r, elem_of_list_to_set, list_elem_of_fmap.
  exists i. split; [reflexivity|]. apply elem_of_seq. lia.
Qed.

(** X22: every group node that the tree shows, on any level and under
    any filter, stands for a path of the set from which [getAllGroups]
    and [expandAll] work: the groups of the actions and all their parent
    paths. *)
Theorem tree_groups_are_known_groups (toLowerCase : string -> string)
    (st : ListProvider.state) (element : option TreeItem)
    (item : GroupItem.t) :
  GroupNode item ∈ ListProvider.getChildren toLowerCase element st ->
  GroupItem.groupPath item ∈ ListProvider.allGroupPaths st.
Proof.
  destruct element as [[g|c0]|]; cbn [ListProvider.getChildren].
  - rewrite getGroupChildren_eq, elem_of_app, list_elem_of_fmap,
      list_elem_of_omap.
    intros [(path & [= ->] & Hpath)| (entry & _ & Hsome)];
      [|now apply direct_not_group in Hsome].
    cbn [GroupItem.new GroupItem.groupPath].
    apply elem_of_firstAppearances, list_elem_of_omap in Hpath
      as (c & Hc & Hsub).
    apply list_elem_of_In, List.filter_In in Hc as [Hc _].
    apply list_elem_of_In in Hc.
    unfold TreeSpec.subOf in Hsub.
    destruct (CommandData.group c) as [gc|] eqn:Hg; [|discriminate].
    destruct (Js.truthy gc) eqn:Ht; [|discriminate].
    destruct (negb _); [|discriminate]. cbn [andb] in Hsub.
    destruct (Js.startsWith gc _) eqn:Hpre; [|discriminate].
    injection Hsub as <-.
    set (P := GroupItem.groupPath g) in *.
    apply startsWith_slice in Hpre.
    set (rem := Js.slice _ gc) in *.
    rewrite append_assoc in Hpre.
    change ("/" +:+ rem) with (String "/" rem) in Hpre.
    pose proof (split_app_sep "/" P rem) as Hsplit. rewrite <- Hpre in Hsplit.
    destruct (split_nonempty "/" rem) as (w & ws & Hrem).
    assert (Js.firstSegment "/" rem = w) as Hw
      by (unfold Js.firstSegment; now rewrite Hrem).
    rewrite Hw.
    assert (P +:+ "/" +:+ w
            = Js.join "/" (take (length (Js.split "/" P) + 1) (Js.split "/" gc)))
      as ->.
    { rewrite Hsplit, Hrem.
      rewrite take_app_ge by lia.
      replace (length (Js.split "/" P) + 1 - length (Js.split "/" P)) with 1
        by lia.
      cbn [take]. rewrite <- (concat_split "/" (P +:+ "/" +:+ w)) at 1.
      change ("/" +:+ w) with (String "/" w).
      rewrite split_app_sep. do 2 f_equal.
      rewrite <- Hw. apply split_firstSegment. }
    apply (allGroupPaths_intro st c gc); auto.
    rewrite Hsplit, Hrem, length_app. cbn [length]. lia.
  - intros H. inversion H.
  - rewrite getRootItems_eq, elem_of_app, list_elem_of_fmap,
      list_elem_of_omap.
    intros [(path & [= ->] & Hpath)| (entry & _ & Hsome)];
      [|now apply root_not_group in Hsome].
    cbn [GroupItem.new GroupItem.groupPath].
    apply elem_of_firstAppearances, list_elem_of_omap in Hpath
      as (c & Hc & Htop).
    apply list_elem_of_In, List.filter_In in Hc as [Hc _].
    apply list_elem_of_In in Hc.
    unfold TreeSpec.topOf in Htop.
    destruct (CommandData.group c) as [gc|] eqn:Hg; [|discriminate].
    destruct (Js.truthy gc) eqn:Ht; [|discriminate].
    injection Htop as <-.
    destruct (split_nonempty "/" gc) as (w & ws & Hsplit).
    assert (Js.firstSegment "/" gc = Js.join "/" (take 1 (Js.split "/" gc)))
      as -> by (unfold Js.firstSegment; now rewrite Hsplit).
    apply (allGroupPaths_intro st c gc); auto.
    rewrite Hsplit. cbn [length]. lia.
Qed.

Lemma tree_groups_are_known_groups_witness :
  let st := Scenario.store [Scenario.GA; Scenario.GB; Scenario.GC] in
  let parent := GroupNode (GroupItem.new "G" false (Some 2)) in
  let child := GroupItem.new "G/Sub" false (Some 1) in
  GroupNode child
    ∈ ListProvider.getChildren Js.toLowerCaseAscii (Some parent) st
  /\ "G/Sub" ∈ ListProvider.allGroupPaths st.
Proof.
  cbn zeta.
  assert (GroupNode (GroupItem.new "G/Sub" false (Some 1))
          ∈ ListProvider.getChildren Js.toLowerCaseAscii
              (Some (GroupNode (GroupItem.new "G" false (Some 2))))
              (Scenario.store [Scenario.GA; Scenario.GB; Scenario.GC]))
    as Hin by (vm_compute; left).
  split; [exact Hin|].
  exact (tree_groups_are_known_groups Js.toLowerCaseAscii _ _ _ Hin).
Defined.
